(** * prtpy: the generalised Karmarkar-Karp solver [kk]

    A shallow embedding of [prtpy/partitioning/kk.py] and of the call made
    by the adaptor [prtpy/partitioning/adaptors.py], with the properties of
    the solver stated and proved over it.

    Python integers are [Z]; the sequence counter [itertools.count()] is a
    [nat] threaded through the loops; exceptions are the [Err] branch of a
    small error monad.  Item values are integers: floating point weights
    are outside this development. *)

From Stdlib Require Import ZArith List Lia Permutation Sorted.
From stdpp Require Import base list.

Open Scope Z_scope.

(** ** Exceptions and the error monad *)

Inductive exn : Type :=
| IndexError            (* list index out of range, pop from an empty list *)
| ValueError            (* max() or min() of an empty sequence *)
| TypeError             (* '<' between two partitions *)
| InvalidConfiguration. (* a partition asked with no bin *)

Inductive result (A : Type) : Type :=
| Ok (a : A)
| Err (e : exn).
Arguments Ok {A} a.
Arguments Err {A} e.

#[global] Instance result_ret : MRet result := fun A a => Ok a.
#[global] Instance result_bind : MBind result := fun A B f r =>
  match r with
  | Ok a => f a
  | Err e => Err e
  end.

Definition is_Ok {A} (r : result A) : Prop := exists a, r = Ok a.

Section KarmarkarKarp.

Context {Item : Type}.

(** ** Partition state *)

(** Modelled from the spec: the classes [Bins], [BinsKeepingSums] and
    [BinsKeepingContents] that [kk.py] imports are not among the source
    files.  A bin is "an ordered container of zero or more items plus its
    cached sum"; this is the content-keeping variant, whose sums are the
    sum-only variant. *)
Record Bin : Type := mkBin { contents : list Item; bsum : Z }.

(** Modelled from the spec: a partition is "a fixed-size ordered sequence
    of exactly K bins" built for a value function; [num] is the K that the
    solver reads as [bins.num]. *)
Record Bins : Type := mkBins {
  num : Z;
  value_fn : Item -> Z;
  bin_list : list Bin
}.

Definition empty_bin : Bin := mkBin [] 0.

(** Modelled from the spec: [sums(partition)] is "the current K-length sum
    vector, index-aligned with bins". *)
Definition sums (p : Bins) : list Z := bsum <$> bin_list p.

(** Modelled from the spec: [create_empty(K, value_fn)] gives "a partition
    with K empty bins, sums all zero. Fails if K <= 0." *)
Definition create_empty_bins (numbins : Z) (valueof : Item -> Z) : result Bins :=
  if numbins <=? 0 then Err InvalidConfiguration
  else Ok (mkBins numbins valueof (replicate (Z.to_nat numbins) empty_bin)).

Definition in_range (K i : Z) : bool := (0 <=? i) && (i <? K).

Definition bin_add (value : Z) (item : Item) (b : Bin) : Bin :=
  mkBin (contents b ++ [item]) (bsum b + value).

(** Modelled from the spec: [add_item(partition, item, bin_index)] "returns
    a partition with item appended to the bin at bin_index; that bin's sum
    increases by value_fn(item). bin_index must be in [0, K)".  The solver
    calls it with [inplace=False]: the receiver is left as it was. *)
Definition add_item_to_bin (p : Bins) (item : Item) (bin_index : Z) : result Bins :=
  if in_range (num p) bin_index then
    Ok (mkBins (num p) (value_fn p)
          (alter (bin_add (value_fn p item) item) (Z.to_nat bin_index) (bin_list p)))
  else Err IndexError.

Definition bin_join (src dst : Bin) : Bin :=
  mkBin (contents dst ++ contents src) (bsum dst + bsum src).

(** Modelled from the spec: [combine(dest_bin_index, dest_partition,
    src_bin_index, src_partition)] "appends all items (and sums) of the
    source partition's bin src_bin_index onto the destination partition's
    bin dest_bin_index". *)
Definition combine_bins (p : Bins) (ibin : Z) (other_bin : Bins) (other_ibin : Z)
  : result Bins :=
  if in_range (num p) ibin && in_range (num other_bin) other_ibin then
    match bin_list other_bin !! Z.to_nat other_ibin with
    | Some src =>
        Ok (mkBins (num p) (value_fn p)
              (alter (bin_join src) (Z.to_nat ibin) (bin_list p)))
    | None => Err IndexError
    end
  else Err IndexError.

Fixpoint insert_bin (b : Bin) (l : list Bin) : list Bin :=
  match l with
  | [] => [b]
  | x :: t => if bsum b <=? bsum x then b :: x :: t else x :: insert_bin b t
  end.

(** Modelled from the spec: [sort(partition)] "reorders the partition's
    bins (and sums) into ascending order by sum", stably, contents and sum
    of a bin moving together. *)
Definition sort (p : Bins) : Bins :=
  mkBins (num p) (value_fn p) (foldr insert_bin [] (bin_list p)).

(** ** Python builtins used by the solver *)

Definition py_max (l : list Z) : result Z :=
  match l with
  | [] => Err ValueError
  | x :: t => Ok (foldl Z.max x t)
  end.

Definition py_min (l : list Z) : result Z :=
  match l with
  | [] => Err ValueError
  | x :: t => Ok (foldl Z.min x t)
  end.

(** [range(n)] *)
Definition range (n : Z) : list Z := Z.of_nat <$> seq 0 (Z.to_nat n).

(** ** Heap entries and [heapq] *)

(** The tuples [(key, next(heap_count), partition, partition.sums)] that
    the solver keeps in the list [partitions]. *)
Record entry : Type := mkEntry {
  key : Z;
  seqno : nat;
  part : Bins;
  sums_snapshot : list Z
}.

(** Python's [<] on two such tuples: the first component at which they
    differ decides.  Partitions define no order, so a comparison that gets
    past the first two components raises. *)
Definition entry_lt (a b : entry) : result bool :=
  if key a =? key b then
    if Nat.eqb (seqno a) (seqno b) then Err TypeError
    else Ok (Nat.ltb (seqno a) (seqno b))
  else Ok (key a <? key b).

(** [heapq] is Python's library; it is modelled by its contract.  The list
    is kept in ascending order of [entry_lt] (such a list is a binary heap),
    so that index 0 holds the smallest entry, [heappush] adds one entry and
    [heappop] takes the smallest out. *)
Fixpoint heappush (heap : list entry) (item : entry) : result (list entry) :=
  match heap with
  | [] => Ok [item]
  | x :: t =>
      b ← entry_lt item x;
      if b : bool then Ok (item :: x :: t)
      else t' ← heappush t item; Ok (x :: t')
  end.

Definition heappop (heap : list entry) : result (entry * list entry) :=
  match heap with
  | [] => Err IndexError
  | x :: t => Ok (x, t)
  end.

(** ** The solver *)

(** Lines 17-21: one pass of [for item in items]. *)
Fixpoint seed (bins : Bins) (valueof : Item -> Z) (items : list Item)
    (partitions : list entry) (heap_count : nat) : result (list entry * nat) :=
  match items with
  | [] => Ok (partitions, heap_count)
  | item :: rest =>
      new_bin ← add_item_to_bin bins item (num bins - 1);
      partitions' ← heappush partitions
        (mkEntry (- valueof item) heap_count new_bin (sums new_bin));
      seed bins valueof rest partitions' (S heap_count)
  end.

(** Lines 27-28: [for i in range(bins.num): bin1.combine_bins(...)]. *)
Fixpoint combine_all (K : Z) (indices : list Z) (bin1 bin2 : Bins) : result Bins :=
  match indices with
  | [] => Ok bin1
  | i :: rest =>
      bin1' ← combine_bins bin1 (K - i - 1) bin2 i;
      combine_all K rest bin1' bin2
  end.

Definition merge (bins bin1 bin2 : Bins) : result Bins :=
  combine_all (num bins) (range (num bins)) bin1 bin2.

(** Lines 24-35: the body of the merge loop. *)
Definition kk_iter (bins : Bins) (st : list entry * nat) : result (list entry * nat) :=
  let '(partitions, heap_count) := st in
  '(e1, partitions1) ← heappop partitions;
  '(e2, partitions2) ← heappop partitions1;
  bin1 ← merge bins (part e1) (part e2);
  let bin1 := sort bin1 in
  mx ← py_max (sums bin1);
  mn ← py_min (sums bin1);
  let diff := mx - mn in
  partitions3 ← heappush partitions2 (mkEntry (- diff) heap_count bin1 (sums bin1));
  Ok (partitions3, S heap_count).

(** Line 23: [for k in range(len(items) - 1)]. *)
Fixpoint merge_loop (bins : Bins) (iterations : nat) (st : list entry * nat)
  : result (list entry * nat) :=
  match iterations with
  | O => Ok st
  | S k => st' ← kk_iter bins st; merge_loop bins k st'
  end.

Definition loop_count (items : list Item) : nat :=
  Z.to_nat (Z.of_nat (length items) - 1).

(** Lines 37-39: [partitions[0]]. *)
Definition final_partition (partitions : list entry) : result Bins :=
  match partitions with
  | [] => Err IndexError
  | e :: _ => Ok (part e)
  end.

Definition kk (bins : Bins) (items : list Item) (valueof : Item -> Z) : result Bins :=
  st ← seed bins valueof items [] O;
  st' ← merge_loop bins (loop_count items) st;
  final_partition (fst st').

(** [adaptors.partition] on a list of items with an explicit value
    function, up to the output format: the partition itself is returned. *)
Definition partition (numbins : Z) (items : list Item) (valueof : Item -> Z)
  : result Bins :=
  bins ← create_empty_bins numbins valueof;
  kk bins items valueof.

(** ** Well-formed partitions *)

(** A partition of [K] bins: [num] and the length of the bin sequence agree. *)
Definition wf (K : Z) (p : Bins) : Prop :=
  num p = K /\ Z.of_nat (length (bin_list p)) = K.

(** The partition that seeding builds from [bins] for one item. *)
Definition single (bins : Bins) (item : Item) : Bins :=
  mkBins (num bins) (value_fn bins)
    (alter (bin_add (value_fn bins item) item) (Z.to_nat (num bins - 1)) (bin_list bins)).

(** All the items of a partition, bin after bin. *)
Definition all_items (p : Bins) : list Item := concat (contents <$> bin_list p).

(** Bins in ascending order of sum. *)
Definition ascending (p : Bins) : Prop := StronglySorted Z.le (sums p).

(** The sum of the values of a list of items. *)
Definition sum_values (valueof : Item -> Z) (l : list Item) : Z :=
  foldr (fun x acc => valueof x + acc) 0 l.

(** The cached sum of every bin is the sum of the values of its items. *)
Definition consistent (p : Bins) : Prop :=
  Forall (fun b => bsum b = sum_values (value_fn p) (contents b)) (bin_list p).

(** ** Predicates and values of the statements *)

(** The bin of rank [j] after the indices [m, m + len) of the loop of
    lines 27-28 have been gone through. *)
Definition paired (K : nat) (m len : nat) (p q : Bins) (j : nat) : option Bin :=
  if bool_decide (K - m - len <= j < K - m)%nat then
    match bin_list q !! (K - 1 - j)%nat with
    | Some src => bin_join src <$> bin_list p !! j
    | None => None
    end
  else bin_list p !! j.

(** The bins of [merge bins p q]: the bin of each rank of [p] joined with
    the bin of the opposite rank of [q]. *)
Definition merged_bins (p q : Bins) : list Bin :=
  zip_with (fun dst src => bin_join src dst) (bin_list p) (reverse (bin_list q)).

(** The lexicographic order on (key, sequence number). *)
Definition entry_lex (a b : entry) : Prop :=
  key a < key b \/ (key a = key b /\ (seqno a < seqno b)%nat).

(** [partitions] is in ascending (key, sequence number) order, every
    sequence number in it is below the counter, and every partition in it
    has [K] bins. *)
Definition heap_inv (K : Z) (c : nat) (h : list entry) : Prop :=
  StronglySorted entry_lex h
  /\ Forall (fun e => (seqno e < c)%nat /\ wf K (part e)) h.

(** [max(sums) - min(sums)] of a partition that has a bin. *)
Definition spread (p : Bins) : Z :=
  match sums p with
  | [] => 0
  | x :: t => foldl Z.max x t - foldl Z.min x t
  end.

(** The entry pushed at line 20 for [item] when the counter is at [c]. *)
Definition seed_entry (bins : Bins) (valueof : Item -> Z) (c : nat) (item : Item)
  : entry :=
  mkEntry (- valueof item) c (single bins item) (sums (single bins item)).

Fixpoint seed_entries (bins : Bins) (valueof : Item -> Z) (c : nat)
    (items : list Item) : list entry :=
  match items with
  | [] => []
  | item :: rest => seed_entry bins valueof c item :: seed_entries bins valueof (S c) rest
  end.

(** The partition pushed at line 35 after [p] and [q] were popped. *)
Definition merged (p q : Bins) : Bins :=
  sort (mkBins (num p) (value_fn p) (merged_bins p q)).

(** The entry pushed at line 35 when the counter is at [c]. *)
Definition merged_entry (c : nat) (p q : Bins) : entry :=
  mkEntry (- spread (merged p q)) c (merged p q) (sums (merged p q)).

(** All the items held by the partitions of the list [partitions]. *)
Definition heap_items (h : list entry) : list Item :=
  concat ((fun e => all_items (part e)) <$> h).

(** The claim's words for an empty [items]: the call fails before the
    merge loop starts, that is in the only code that runs before it, the
    seeding loop. *)
Definition rejects_before_merge_loop (bins : Bins) (items : list Item)
    (valueof : Item -> Z) : Prop :=
  exists e, seed bins valueof items [] 0 = Err e.

(** The claim's words for the pops of one pass: the two entries taken out
    are the two of highest key. *)
Definition pops_two_highest_keyed (h : list entry) : Prop :=
  forall e1 h1 e2 h2,
    heappop h = Ok (e1, h1) -> heappop h1 = Ok (e2, h2) ->
    key e2 <= key e1 /\ Forall (fun x => key x <= key e2) h2.

(** [partitions] when seeding is over, for empty bins; empty if seeding
    failed. *)
Definition seeded (numbins : Z) (items : list Item) (valueof : Item -> Z)
  : list entry :=
  match (bins ← create_empty_bins numbins valueof; seed bins valueof items [] 0) with
  | Ok (h, _) => h
  | Err _ => []
  end.

(** What holds of the list [partitions] and of the counter whatever the
    bins: ascending (key, sequence number) order, sequence numbers below
    the counter and pairwise distinct. *)
Definition order_inv (c : nat) (h : list entry) : Prop :=
  StronglySorted entry_lex h
  /\ Forall (fun e => (seqno e < c)%nat) h
  /\ NoDup (seqno <$> h).

(** The list [partitions] and the counter, after any number of passes of
    the seeding loop, and after any number of passes of the merge loop. *)
Inductive reachable (bins : Bins) (valueof : Item -> Z) (items : list Item)
  : list entry * nat -> Prop :=
| reach_seeding pre suf st :
    items = pre ++ suf ->
    seed bins valueof pre [] 0 = Ok st ->
    reachable bins valueof items st
| reach_merging k st0 st :
    (k <= loop_count items)%nat ->
    seed bins valueof items [] 0 = Ok st0 ->
    merge_loop bins k st0 = Ok st ->
    reachable bins valueof items st.

(** The contract of [heapq], whatever the arrangement of the list: a push
    adds the entry; a pop takes out an entry that is below all others, the
    one that a heap has at index 0. *)
Definition pushes (h : list entry) (e : entry) (h' : list entry) : Prop :=
  h' ≡ₚ e :: h.

Definition pops (h : list entry) (e : entry) (h' : list entry) : Prop :=
  h ≡ₚ e :: h' /\ Forall (entry_lex e) h'.

(** The loops of [kk] with the heap left to that contract. *)
Inductive seed_any (bins : Bins) (valueof : Item -> Z)
  : list Item -> list entry * nat -> list entry * nat -> Prop :=
| seed_any_nil st : seed_any bins valueof [] st st
| seed_any_cons item rest h c new_bin h1 st' :
    add_item_to_bin bins item (num bins - 1) = Ok new_bin ->
    pushes h (mkEntry (- valueof item) c new_bin (sums new_bin)) h1 ->
    seed_any bins valueof rest (h1, S c) st' ->
    seed_any bins valueof (item :: rest) (h, c) st'.

Inductive iter_any (bins : Bins) : list entry * nat -> list entry * nat -> Prop :=
| iter_any_intro h c e1 h1 e2 h2 bin1 mx mn h3 :
    pops h e1 h1 ->
    pops h1 e2 h2 ->
    merge bins (part e1) (part e2) = Ok bin1 ->
    py_max (sums (sort bin1)) = Ok mx ->
    py_min (sums (sort bin1)) = Ok mn ->
    pushes h2 (mkEntry (- (mx - mn)) c (sort bin1) (sums (sort bin1))) h3 ->
    iter_any bins (h, c) (h3, S c).

Inductive loop_any (bins : Bins)
  : nat -> list entry * nat -> list entry * nat -> Prop :=
| loop_any_O st : loop_any bins 0 st st
| loop_any_S k st st1 st' :
    iter_any bins st st1 -> loop_any bins k st1 st' ->
    loop_any bins (S k) st st'.

Definition kk_any (bins : Bins) (items : list Item) (valueof : Item -> Z)
    (p : Bins) : Prop :=
  exists st st' e rest,
    seed_any bins valueof items ([], 0%nat) st
    /\ loop_any bins (loop_count items) st st'
    /\ pops (fst st') e rest
    /\ p = part e.

(** The sum of a list of integers. *)
Definition total (l : list Z) : Z := foldr Z.add 0 l.

(** A bin that holds a single item, of positive sum. *)
Definition alone (b : Bin) : Prop := exists x, contents b = [x] /\ 0 < bsum b.

(** Empty bins first, then bins of one item each. *)
Definition one_item_each (p : Bins) : Prop :=
  exists e l, bin_list p = replicate e empty_bin ++ l /\ Forall alone l.

(** Two entries that differ at most by their sequence numbers. *)
Definition same_but_seqno (a b : entry) : Prop :=
  key a = key b /\ part a = part b /\ sums_snapshot a = sums_snapshot b.

(** ** Properties of the partition operations *)

Lemma in_range_true K i : in_range K i = true <-> 0 <= i < K.
Proof. unfold in_range. rewrite andb_true_iff, Z.leb_le, Z.ltb_lt. tauto. Qed.

Lemma create_empty_bins_Ok numbins valueof :
  1 <= numbins ->
  create_empty_bins numbins valueof
  = Ok (mkBins numbins valueof (replicate (Z.to_nat numbins) empty_bin)).
Proof.
  intros HK. unfold create_empty_bins.
  destruct (Z.leb_spec numbins 0); [lia | reflexivity].
Qed.

Lemma create_empty_bins_wf numbins valueof p :
  create_empty_bins numbins valueof = Ok p ->
  1 <= numbins /\ wf numbins p /\ value_fn p = valueof
  /\ bin_list p = replicate (Z.to_nat numbins) empty_bin.
Proof.
  unfold create_empty_bins. destruct (Z.leb_spec numbins 0); [discriminate|].
  intros [= <-]. repeat split; simpl; try lia.
  rewrite length_replicate. lia.
Qed.

Lemma add_item_to_bin_last bins item :
  1 <= num bins ->
  add_item_to_bin bins item (num bins - 1) = Ok (single bins item).
Proof.
  intros HK. unfold add_item_to_bin.
  destruct (in_range (num bins) (num bins - 1)) eqn:E; [reflexivity|].
  assert (in_range (num bins) (num bins - 1) = true) by (apply in_range_true; lia).
  congruence.
Qed.

Lemma single_wf K bins item : wf K bins -> wf K (single bins item).
Proof. intros [H1 H2]. split; simpl; [done|]. by rewrite length_alter. Qed.

(** ** Sorting the bins *)

Lemma insert_bin_perm b l : insert_bin b l ≡ₚ b :: l.
Proof.
  induction l as [|x t IH]; simpl; [done|].
  destruct (bsum b <=? bsum x); [done|].
  rewrite IH. apply perm_swap.
Qed.

Lemma sort_bins_perm l : foldr insert_bin [] l ≡ₚ l.
Proof.
  induction l as [|x t IH]; simpl; [done|].
  by rewrite insert_bin_perm, IH.
Qed.

Lemma insert_bin_sorted b l :
  StronglySorted Z.le (bsum <$> l) ->
  StronglySorted Z.le (bsum <$> insert_bin b l).
Proof.
  induction l as [|x t IH]; simpl; intros Hs.
  - repeat constructor.
  - destruct (Z.leb_spec (bsum b) (bsum x)) as [Hle|Hgt]; simpl.
    + constructor; [done|].
      apply StronglySorted_inv in Hs as [_ Hall].
      constructor; [done|].
      eapply Forall_impl; [exact Hall|]. simpl. intros; lia.
    + apply StronglySorted_inv in Hs as [Hs Hall].
      constructor; [by apply IH|].
      assert (Hp : bsum <$> insert_bin b t ≡ₚ bsum <$> b :: t)
        by (by rewrite insert_bin_perm).
      rewrite Hp. simpl. constructor; [lia | done].
Qed.

Lemma sort_ascending p : ascending (sort p).
Proof.
  unfold ascending, sums, sort; simpl.
  induction (bin_list p) as [|x t IH]; simpl; [constructor|].
  by apply insert_bin_sorted.
Qed.

Lemma sort_wf K p : wf K p -> wf K (sort p).
Proof.
  intros [H1 H2]. split; simpl; [done|].
  by rewrite (Permutation_length (sort_bins_perm (bin_list p))).
Qed.

Lemma sort_all_items p : all_items (sort p) ≡ₚ all_items p.
Proof. unfold all_items, sort; simpl. by rewrite sort_bins_perm. Qed.

Lemma sort_bin_list_perm p : bin_list (sort p) ≡ₚ bin_list p.
Proof. apply sort_bins_perm. Qed.

(** ** The pairing made by a merge *)

Lemma combine_bins_Ok K p q (i j : nat) src :
  wf K p -> wf K q -> (i < Z.to_nat K)%nat -> bin_list q !! j = Some src ->
  combine_bins p (Z.of_nat i) q (Z.of_nat j)
  = Ok (mkBins (num p) (value_fn p) (alter (bin_join src) i (bin_list p))).
Proof.
  intros [Hp1 Hp2] [Hq1 Hq2] Hi Hj.
  pose proof (lookup_lt_Some _ _ _ Hj) as Hlt.
  unfold combine_bins.
  assert (in_range (num p) (Z.of_nat i) = true) as -> by (apply in_range_true; lia).
  assert (in_range (num q) (Z.of_nat j) = true) as -> by (apply in_range_true; lia).
  simpl. rewrite !Nat2Z.id. by rewrite Hj.
Qed.

Lemma combine_all_spec K q :
  wf K q ->
  forall len m p, wf K p -> (m + len <= Z.to_nat K)%nat ->
  exists r, combine_all K (Z.of_nat <$> seq m len) p q = Ok r
    /\ wf K r /\ value_fn r = value_fn p
    /\ forall j, bin_list r !! j = paired (Z.to_nat K) m len p q j.
Proof.
  intros Hq. induction len as [|len IH]; intros m p Hp Hm.
  - exists p. repeat split; try apply Hp. intros j. unfold paired.
    rewrite bool_decide_eq_false_2; [done | lia].
  - destruct (lookup_lt_is_Some_2 (bin_list q) m) as [src Hsrc].
    { destruct Hq as [_ Hq]. lia. }
    simpl.
    replace (K - Z.of_nat m - 1) with (Z.of_nat (Z.to_nat K - 1 - m)) by lia.
    rewrite (combine_bins_Ok K p q _ _ src); [|done|done|lia|done].
    simpl.
    set (p' := mkBins (num p) (value_fn p)
                 (alter (bin_join src) (Z.to_nat K - 1 - m)%nat (bin_list p))).
    assert (Hp' : wf K p').
    { destruct Hp as [H1 H2]. split; simpl; [done|]. by rewrite length_alter. }
    destruct (IH (S m) p' Hp') as (r & Hr & Hwf & Hv & Hl); [lia|].
    exists r. repeat split; try apply Hwf; [done..|].
    intros j. rewrite Hl. unfold paired. simpl.
    destruct (decide (j = Z.to_nat K - 1 - m)%nat) as [->|Hne].
    + rewrite bool_decide_eq_false_2 by lia.
      rewrite bool_decide_eq_true_2 by lia.
      replace (Z.to_nat K - 1 - (Z.to_nat K - 1 - m))%nat with m by lia.
      rewrite Hsrc. apply list_lookup_alter_eq.
    + rewrite list_lookup_alter_ne by done.
      destruct (decide (Z.to_nat K - S m - len <= j < Z.to_nat K - S m)%nat).
      * rewrite !bool_decide_eq_true_2 by lia. done.
      * rewrite !bool_decide_eq_false_2 by lia. done.
Qed.

Lemma merge_spec K bins p q :
  wf K bins -> wf K p -> wf K q ->
  merge bins p q = Ok (mkBins (num p) (value_fn p) (merged_bins p q)).
Proof.
  intros [HK _] Hp Hq. unfold merge, range. rewrite HK.
  destruct (combine_all_spec K q Hq (Z.to_nat K) 0%nat p Hp) as (r & Hr & Hwf & Hv & Hl);
    [lia|].
  rewrite Hr. f_equal. destruct r as [n v l]; simpl in *.
  destruct Hwf as [Hn Hlen], Hp as [Hpn Hplen], Hq as [Hqn Hqlen]; simpl in *.
  f_equal; [congruence|done|].
  apply list_eq. intros j. rewrite Hl. unfold paired, merged_bins.
  rewrite lookup_zip_with.
  destruct (decide (j < Z.to_nat K)%nat) as [Hj|Hj].
  - rewrite bool_decide_eq_true_2 by lia.
    rewrite reverse_lookup by lia.
    replace (length (bin_list q) - S j)%nat with (Z.to_nat K - 1 - j)%nat by lia.
    destruct (lookup_lt_is_Some_2 (bin_list q) (Z.to_nat K - 1 - j)%nat) as [src ->]; [lia|].
    destruct (lookup_lt_is_Some_2 (bin_list p) j) as [dst ->]; [lia|].
    done.
  - rewrite bool_decide_eq_false_2 by lia.
    rewrite (lookup_ge_None_2 (bin_list p)) by lia. done.
Qed.

Lemma merged_bins_length p q :
  length (bin_list p) = length (bin_list q) ->
  length (merged_bins p q) = length (bin_list p).
Proof.
  intros H. unfold merged_bins. rewrite length_zip_with, length_reverse. lia.
Qed.

Lemma merged_bins_lookup p q (K i : nat) a b :
  length (bin_list q) = K -> (i < K)%nat ->
  bin_list p !! (K - 1 - i)%nat = Some a ->
  bin_list q !! i = Some b ->
  merged_bins p q !! (K - 1 - i)%nat = Some (bin_join b a).
Proof.
  intros Hq Hi Ha Hb. unfold merged_bins.
  rewrite lookup_zip_with, Ha. simpl.
  rewrite reverse_lookup by lia.
  replace (length (bin_list q) - S (K - 1 - i))%nat with i by lia.
  by rewrite Hb.
Qed.

Lemma zip_join_items (l1 l2 : list Bin) :
  length l1 = length l2 ->
  concat (contents <$> zip_with (fun dst src => bin_join src dst) l1 l2)
  ≡ₚ concat (contents <$> l1) ++ concat (contents <$> l2).
Proof.
  revert l2. induction l1 as [|a l1 IH]; intros [|b l2] Hlen; simpl in *;
    try done.
  rewrite IH by lia. rewrite <- !app_assoc. f_equiv.
  rewrite !app_assoc. f_equiv; [apply Permutation_app_comm | done].
Qed.

Lemma merged_bins_items p q :
  length (bin_list p) = length (bin_list q) ->
  concat (contents <$> merged_bins p q) ≡ₚ all_items p ++ all_items q.
Proof.
  intros H. unfold merged_bins, all_items.
  rewrite zip_join_items by (by rewrite length_reverse).
  by rewrite reverse_Permutation.
Qed.

(** ** The order of the heap *)

Lemma entry_lex_trans a b c : entry_lex a b -> entry_lex b c -> entry_lex a c.
Proof. unfold entry_lex. lia. Qed.

Lemma entry_lex_irrefl a : ~ entry_lex a a.
Proof. unfold entry_lex. lia. Qed.

Lemma entry_lex_total a b :
  seqno a <> seqno b -> entry_lex a b \/ entry_lex b a.
Proof. unfold entry_lex. lia. Qed.

Lemma entry_lt_true a b : entry_lex a b -> entry_lt a b = Ok true.
Proof.
  unfold entry_lex, entry_lt. intros H.
  destruct (Z.eqb_spec (key a) (key b)).
  - destruct (Nat.eqb_spec (seqno a) (seqno b)); [lia|].
    f_equal. apply Nat.ltb_lt. lia.
  - f_equal. apply Z.ltb_lt. lia.
Qed.

Lemma entry_lt_false a b : entry_lex b a -> entry_lt a b = Ok false.
Proof.
  unfold entry_lex, entry_lt. intros H.
  destruct (Z.eqb_spec (key a) (key b)).
  - destruct (Nat.eqb_spec (seqno a) (seqno b)); [lia|].
    f_equal. apply Nat.ltb_ge. lia.
  - f_equal. apply Z.ltb_ge. lia.
Qed.

Lemma entry_lt_TypeError a b :
  entry_lt a b = Err TypeError <-> key a = key b /\ seqno a = seqno b.
Proof.
  unfold entry_lt.
  destruct (Z.eqb_spec (key a) (key b));
    [destruct (Nat.eqb_spec (seqno a) (seqno b))|]; split; intros H;
    try discriminate; try reflexivity; try tauto; lia.
Qed.

Lemma heappush_spec h e :
  StronglySorted entry_lex h ->
  Forall (fun x => seqno x <> seqno e) h ->
  exists h', heappush h e = Ok h' /\ h' ≡ₚ e :: h /\ StronglySorted entry_lex h'.
Proof.
  induction h as [|x t IH]; intros Hs Hne.
  - exists [e]. repeat split; [done|]. repeat constructor.
  - apply StronglySorted_inv in Hs as [Hs Hx].
    apply Forall_cons in Hne as [Hxe Hne].
    destruct (entry_lex_total e x) as [Hlt|Hlt]; [done|..]; simpl.
    + rewrite (entry_lt_true _ _ Hlt). simpl.
      exists (e :: x :: t). repeat split; [done|].
      constructor; [by constructor|].
      constructor; [done|].
      eapply Forall_impl; [exact Hx|]. intros y Hy.
      by apply entry_lex_trans with x.
    + rewrite (entry_lt_false _ _ Hlt). simpl.
      destruct (IH Hs Hne) as (t' & -> & Hp & Hs'). simpl.
      exists (x :: t'). repeat split.
      * rewrite Hp. apply perm_swap.
      * constructor; [done|]. rewrite Hp. by constructor.
Qed.

(** ** Invariant of the list [partitions] *)

Lemma heap_inv_nil K c : heap_inv K c [].
Proof. split; constructor. Qed.

Lemma heap_inv_tail K c e h : heap_inv K c (e :: h) -> heap_inv K c h.
Proof.
  intros [Hs Hf]. apply StronglySorted_inv in Hs as [Hs _].
  apply Forall_cons in Hf as [_ Hf]. by split.
Qed.

Lemma heap_inv_push K c h e :
  heap_inv K c h -> seqno e = c -> wf K (part e) ->
  exists h', heappush h e = Ok h' /\ h' ≡ₚ e :: h /\ heap_inv K (S c) h'.
Proof.
  intros [Hs Hf] Hc Hwf.
  destruct (heappush_spec h e Hs) as (h' & Hpush & Hp & Hs').
  { eapply Forall_impl; [exact Hf|]. simpl. intros x [Hx _]. lia. }
  exists h'. repeat split; [done..|].
  rewrite Hp. constructor; [split; [lia|done]|].
  eapply Forall_impl; [exact Hf|]. simpl. intros x [Hx ?]. split; [lia|done].
Qed.

(** ** Maximum and minimum of the sums *)

Lemma foldl_max_spec t : forall x,
  (foldl Z.max x t ∈ x :: t) /\ Forall (fun y => y <= foldl Z.max x t) (x :: t).
Proof.
  induction t as [|y t IH]; intros x; simpl.
  - split; [left | by constructor].
  - destruct (IH (Z.max x y)) as [Hin Hall].
    apply Forall_cons in Hall as [H1 H2]. split.
    + apply elem_of_cons in Hin as [->|Hin].
      * destruct (Z.max_spec x y) as [[_ ->]|[_ ->]]; [right; left | left].
      * by do 2 right.
    + repeat constructor; [lia | lia | done].
Qed.

Lemma foldl_min_spec t : forall x,
  (foldl Z.min x t ∈ x :: t) /\ Forall (fun y => foldl Z.min x t <= y) (x :: t).
Proof.
  induction t as [|y t IH]; intros x; simpl.
  - split; [left | by constructor].
  - destruct (IH (Z.min x y)) as [Hin Hall].
    apply Forall_cons in Hall as [H1 H2]. split.
    + apply elem_of_cons in Hin as [->|Hin].
      * destruct (Z.min_spec x y) as [[_ ->]|[_ ->]]; [left | right; left].
      * by do 2 right.
    + repeat constructor; [lia | lia | done].
Qed.

Lemma py_max_spec l m :
  py_max l = Ok m -> m ∈ l /\ Forall (fun y => y <= m) l.
Proof. destruct l as [|x t]; [done|]. intros [= <-]. apply foldl_max_spec. Qed.

Lemma py_min_spec l m :
  py_min l = Ok m -> m ∈ l /\ Forall (fun y => m <= y) l.
Proof. destruct l as [|x t]; [done|]. intros [= <-]. apply foldl_min_spec. Qed.

Lemma py_max_min_spread K p :
  1 <= K -> wf K p ->
  exists mx mn, py_max (sums p) = Ok mx /\ py_min (sums p) = Ok mn
    /\ mx - mn = spread p.
Proof.
  intros HK [_ Hlen]. unfold spread, sums in *.
  destruct (bin_list p) as [|b t]; simpl in *; [lia|].
  eexists _, _. repeat split.
Qed.

(** ** One pass of each loop *)

Lemma merged_wf K p q : wf K p -> wf K q -> wf K (merged p q).
Proof.
  intros [Hp1 Hp2] [Hq1 Hq2]. apply sort_wf. split; simpl; [done|].
  rewrite merged_bins_length; [done | lia].
Qed.

Lemma merged_all_items K p q :
  wf K p -> wf K q -> all_items (merged p q) ≡ₚ all_items p ++ all_items q.
Proof.
  intros [Hp1 Hp2] [Hq1 Hq2]. unfold merged. rewrite sort_all_items.
  unfold all_items at 1; simpl. apply merged_bins_items. lia.
Qed.

Lemma seed_spec K bins valueof items :
  1 <= K -> wf K bins ->
  forall h c, heap_inv K c h ->
  exists h', seed bins valueof items h c = Ok (h', (c + length items)%nat)
    /\ h' ≡ₚ h ++ seed_entries bins valueof c items
    /\ heap_inv K (c + length items) h'.
Proof.
  intros HK Hb. induction items as [|item rest IH]; intros h c Hinv; simpl.
  - exists h. rewrite Nat.add_0_r, app_nil_r. done.
  - rewrite add_item_to_bin_last by (destruct Hb; lia). simpl.
    destruct (heap_inv_push K c h (seed_entry bins valueof c item) Hinv)
      as (h1 & Hpush & Hperm & Hinv1); [done | by apply single_wf |].
    unfold seed_entry in Hpush. rewrite Hpush. simpl.
    destruct (IH h1 (S c) Hinv1) as (h' & Hseed & Hperm' & Hinv').
    exists h'. replace (c + S (length rest))%nat with (S c + length rest)%nat by lia.
    repeat split; [done| |apply Hinv'..].
    rewrite Hperm', Hperm. by rewrite <- Permutation_middle.
Qed.

Lemma kk_iter_spec K bins c e1 e2 h :
  1 <= K -> wf K bins -> heap_inv K c (e1 :: e2 :: h) ->
  exists h', kk_iter bins (e1 :: e2 :: h, c) = Ok (h', S c)
    /\ heappush h (merged_entry c (part e1) (part e2)) = Ok h'
    /\ h' ≡ₚ merged_entry c (part e1) (part e2) :: h
    /\ heap_inv K (S c) h'.
Proof.
  intros HK Hb Hinv.
  assert (Hw1 : wf K (part e1)).
  { destruct Hinv as [_ Hf]. apply Forall_cons in Hf as [[_ ?] _]. done. }
  assert (Hw2 : wf K (part e2)).
  { apply heap_inv_tail in Hinv. destruct Hinv as [_ Hf].
    apply Forall_cons in Hf as [[_ ?] _]. done. }
  pose proof (merged_wf K _ _ Hw1 Hw2) as Hwm.
  destruct (py_max_min_spread K _ HK Hwm) as (mx & mn & Hmx & Hmn & Hsp).
  destruct (heap_inv_push K c h (merged_entry c (part e1) (part e2)))
    as (h' & Hpush & Hperm & Hinv'); [by do 2 apply heap_inv_tail in Hinv|done..|].
  exists h'. split; [|done].
  unfold kk_iter. simpl.
  rewrite (merge_spec K bins _ _ Hb Hw1 Hw2). simpl.
  fold (merged (part e1) (part e2)). rewrite Hmx. simpl. rewrite Hmn. simpl.
  rewrite Hsp. unfold merged_entry in Hpush. rewrite Hpush. done.
Qed.

(** The loop runs as long as two entries are left. *)
Lemma merge_loop_spec K bins :
  1 <= K -> wf K bins ->
  forall k h c, heap_inv K c h -> (k < length h)%nat ->
  exists h', merge_loop bins k (h, c) = Ok (h', (c + k)%nat)
    /\ heap_inv K (c + k) h' /\ length h' = (length h - k)%nat.
Proof.
  intros HK Hb. induction k as [|k IH]; intros h c Hinv Hlen; cbn [merge_loop].
  - exists h. rewrite Nat.add_0_r, Nat.sub_0_r. done.
  - destruct h as [|e1 [|e2 h]]; simpl in Hlen; try lia.
    destruct (kk_iter_spec K bins c e1 e2 h HK Hb Hinv) as (h1 & -> & _ & Hperm & Hinv1).
    cbn [mbind result_bind].
    assert (Hl1 : length h1 = S (length h)) by (by rewrite Hperm).
    destruct (IH h1 (S c) Hinv1) as (h' & Hloop & Hinv' & Hlen'); [lia|].
    exists h'. replace (c + S k)%nat with (S c + k)%nat by lia.
    repeat split; [done|apply Hinv'..|]. simpl. lia.
Qed.

(** What one successful pass of the merge loop did. *)
Lemma kk_iter_inv K bins c h st' :
  1 <= K -> wf K bins -> heap_inv K c h ->
  kk_iter bins (h, c) = Ok st' ->
  exists e1 e2 t h', h = e1 :: e2 :: t /\ st' = (h', S c)
    /\ h' ≡ₚ merged_entry c (part e1) (part e2) :: t
    /\ heap_inv K (S c) h'.
Proof.
  intros HK Hb Hinv Hit.
  destruct h as [|e1 [|e2 t]]; try discriminate.
  destruct (kk_iter_spec K bins c e1 e2 t HK Hb Hinv) as (h' & Hit' & _ & Hp & Hinv').
  exists e1, e2, t, h'. repeat split; try done; try apply Hinv'. congruence.
Qed.

(** A property of the list [partitions] that every pass of the merge loop
    keeps is kept by the loop. *)
Lemma merge_loop_preserves K bins (Q : list entry -> Prop) :
  1 <= K -> wf K bins ->
  (forall c e1 e2 t h', heap_inv K c (e1 :: e2 :: t) -> Q (e1 :: e2 :: t) ->
     h' ≡ₚ merged_entry c (part e1) (part e2) :: t -> Q h') ->
  forall k h c h' c', heap_inv K c h -> Q h ->
    merge_loop bins k (h, c) = Ok (h', c') -> Q h'.
Proof.
  intros HK Hb Hstep. induction k as [|k IH]; intros h c h' c' Hinv HQ;
    cbn [merge_loop].
  - by intros [= <- <-].
  - destruct (kk_iter bins (h, c)) as [st1|] eqn:Hit; [|done].
    cbn [mbind result_bind].
    destruct (kk_iter_inv K bins c h st1 HK Hb Hinv Hit)
      as (e1 & e2 & t & h1 & -> & -> & Hp & Hinv1).
    apply IH; [done|]. by eapply Hstep.
Qed.

(** ** Seeding from empty bins *)

Lemma single_fresh numbins valueof bins item :
  create_empty_bins numbins valueof = Ok bins ->
  bin_list (single bins item)
  = replicate (Z.to_nat numbins - 1) empty_bin ++ [mkBin [item] (valueof item)].
Proof.
  intros Hc. apply create_empty_bins_wf in Hc as (HK & [Hn _] & Hv & Hl).
  unfold single. simpl. rewrite Hl, Hn, Hv.
  replace (Z.to_nat numbins) with (S (Z.to_nat numbins - 1)) at 1 by lia.
  rewrite replicate_S_end.
  replace (Z.to_nat (numbins - 1)) with (length (replicate (Z.to_nat numbins - 1) empty_bin) + 0)%nat
    by (rewrite length_replicate; lia).
  rewrite alter_app_r. done.
Qed.

Lemma single_fresh_items numbins valueof bins item :
  create_empty_bins numbins valueof = Ok bins ->
  all_items (single bins item) = [item].
Proof.
  intros Hc. unfold all_items. rewrite (single_fresh _ _ _ _ Hc).
  rewrite fmap_app, concat_app, fmap_replicate. simpl.
  induction (Z.to_nat numbins - 1)%nat as [|n IH]; simpl; done.
Qed.

Lemma single_fresh_ascending numbins valueof bins item :
  create_empty_bins numbins valueof = Ok bins ->
  0 <= valueof item ->
  ascending (single bins item).
Proof.
  intros Hc Hv. unfold ascending, sums. rewrite (single_fresh _ _ _ _ Hc).
  rewrite fmap_app, fmap_replicate. simpl.
  induction (Z.to_nat numbins - 1)%nat as [|n IH]; simpl.
  - repeat constructor.
  - constructor; [done|]. apply Forall_app. split.
    + apply Forall_replicate. lia.
    + by constructor.
Qed.

Lemma heap_items_perm h h' : h ≡ₚ h' -> heap_items h ≡ₚ heap_items h'.
Proof. intros Hp. unfold heap_items. by rewrite Hp. Qed.

Lemma seed_entries_items numbins valueof bins items :
  create_empty_bins numbins valueof = Ok bins ->
  forall c, heap_items (seed_entries bins valueof c items) = items.
Proof.
  intros Hc. induction items as [|item rest IH]; intros c; [done|].
  unfold heap_items in *. simpl. rewrite IH.
  by rewrite (single_fresh_items _ _ _ _ Hc).
Qed.

Lemma seed_entries_ascending numbins valueof bins items :
  create_empty_bins numbins valueof = Ok bins ->
  Forall (fun x => 0 <= valueof x) items ->
  forall c, Forall (fun e => ascending (part e)) (seed_entries bins valueof c items).
Proof.
  intros Hc. induction 1 as [|item rest Hv _ IH]; intros c; simpl.
  - constructor.
  - constructor; [|apply IH]. simpl. by eapply single_fresh_ascending.
Qed.

Lemma seed_entries_lookup bins valueof items : forall c j item,
  items !! j = Some item ->
  seed_entries bins valueof c items !! j = Some (seed_entry bins valueof (c + j) item).
Proof.
  induction items as [|x rest IH]; intros c [|j] item Hj; simpl in *; try done.
  - injection Hj as ->. by rewrite Nat.add_0_r.
  - rewrite (IH (S c) j item Hj). do 2 f_equal. lia.
Qed.

Lemma loop_count_length (items : list Item) :
  loop_count items = (length items - 1)%nat.
Proof. unfold loop_count. lia. Qed.

(** ** Cached sums *)

Lemma sum_values_app valueof l1 l2 :
  sum_values valueof (l1 ++ l2) = sum_values valueof l1 + sum_values valueof l2.
Proof. induction l1 as [|x l1 IH]; simpl; [done|]. rewrite IH. lia. Qed.

Lemma single_fresh_consistent numbins valueof bins item :
  create_empty_bins numbins valueof = Ok bins ->
  value_fn (single bins item) = valueof /\ consistent (single bins item).
Proof.
  intros Hc. pose proof (create_empty_bins_wf _ _ _ Hc) as (_ & _ & Hv & _).
  split; [done|]. unfold consistent. rewrite (single_fresh _ _ _ _ Hc).
  simpl. rewrite Hv. apply Forall_app. split.
  - by apply Forall_replicate.
  - repeat constructor. simpl. lia.
Qed.

Lemma zip_join_consistent valueof (l1 l2 : list Bin) :
  Forall (fun b => bsum b = sum_values valueof (contents b)) l1 ->
  Forall (fun b => bsum b = sum_values valueof (contents b)) l2 ->
  Forall (fun b => bsum b = sum_values valueof (contents b))
    (zip_with (fun dst src => bin_join src dst) l1 l2).
Proof.
  intros H1. revert l2. induction H1 as [|a l1 Ha _ IH]; intros l2 H2; [constructor|].
  destruct H2 as [|b l2 Hb H2]; simpl; [constructor|].
  constructor; [|by apply IH]. simpl. rewrite sum_values_app. lia.
Qed.

Lemma merged_consistent p q :
  value_fn q = value_fn p -> consistent p -> consistent q ->
  value_fn (merged p q) = value_fn p /\ consistent (merged p q).
Proof.
  intros Hv Hp Hq. split; [done|]. unfold consistent, merged, sort. simpl.
  rewrite sort_bins_perm. apply zip_join_consistent; [done|].
  apply Forall_reverse. unfold consistent in Hq. by rewrite Hv in Hq.
Qed.

(** ** The result of the solver *)

(** What the list [partitions] holds when the merge loop has run on the
    seeds of a non-empty [items]: a single entry. *)
Lemma kk_run K bins valueof items :
  1 <= K -> wf K bins -> items <> [] ->
  exists h0 e,
    seed bins valueof items [] 0 = Ok (h0, length items)
    /\ h0 ≡ₚ seed_entries bins valueof 0 items
    /\ heap_inv K (length items) h0
    /\ merge_loop bins (loop_count items) (h0, length items)
       = Ok ([e], (length items + loop_count items)%nat)
    /\ heap_inv K (length items + loop_count items) [e]
    /\ kk bins items valueof = Ok (part e).
Proof.
  intros HK Hb Hne.
  destruct (seed_spec K bins valueof items HK Hb [] 0%nat (heap_inv_nil K 0))
    as (h0 & Hseed & Hperm & Hinv0).
  simpl in *.
  assert (Hlen0 : length h0 = length items).
  { rewrite Hperm. clear. generalize 0%nat.
    induction items as [|x t IH]; intros c; simpl; [done|]. by rewrite IH. }
  assert (Hpos : (0 < length items)%nat) by (destruct items; simpl; [done|lia]).
  destruct (merge_loop_spec K bins HK Hb (loop_count items) h0 (length items) Hinv0)
    as (h' & Hloop & Hinv' & Hlen'); [rewrite loop_count_length; lia|].
  rewrite loop_count_length in Hlen'.
  destruct h' as [|e [|? ?]]; simpl in Hlen'; try lia.
  exists h0, e. repeat split; try done; try apply Hinv0; try apply Hinv'.
  unfold kk. rewrite Hseed. cbn [mbind result_bind]. rewrite Hloop. done.
Qed.

(** C1. For [numBins >= 1], a non-empty [items] and values that are never
    negative, the solver returns a partition of exactly [numBins] bins,
    whose bins together hold the items of the input, each once, and whose
    bins are in ascending order of sum -- the cached sum of each bin being
    the sum of the values of its items. *)
Theorem kk_returns_sorted_partition_of_items
    (numBins : Z) (items : list Item) (valueof : Item -> Z) :
  1 <= numBins ->
  items <> [] ->
  Forall (fun x => 0 <= valueof x) items ->
  exists p, partition numBins items valueof = Ok p
    /\ num p = numBins
    /\ length (bin_list p) = Z.to_nat numBins
    /\ all_items p ≡ₚ items
    /\ ascending p
    /\ value_fn p = valueof
    /\ consistent p.
Proof.
  intros HK Hne Hv. unfold partition.
  pose proof (create_empty_bins_Ok numBins valueof HK) as Hc.
  rewrite Hc. cbn [mbind result_bind].
  set (bins := mkBins numBins valueof (replicate (Z.to_nat numBins) empty_bin)) in *.
  apply create_empty_bins_wf in Hc as Hc'. destruct Hc' as (_ & Hb & _ & _).
  destruct (kk_run numBins bins valueof items HK Hb Hne)
    as (h0 & e & Hseed & Hperm & Hinv0 & Hloop & Hinv & Hkk).
  exists (part e). split; [done|].
  set (good := fun e : entry =>
         ascending (part e) /\ value_fn (part e) = valueof /\ consistent (part e)).
  assert (HQ : heap_items [e] ≡ₚ items /\ Forall good [e]).
  { apply (merge_loop_preserves numBins bins
             (fun h => heap_items h ≡ₚ items /\ Forall good h)
             HK Hb) with (k := loop_count items) (h := h0) (c := length items)
             (c' := (length items + loop_count items)%nat); [|done| |done].
    - intros c e1 e2 t h' Hi [Hit Hgood] Hp. split.
      + rewrite (heap_items_perm _ _ Hp), <- Hit. unfold heap_items. simpl.
        destruct Hi as [_ Hf].
        apply Forall_cons in Hf as [[_ Hw1] Hf].
        apply Forall_cons in Hf as [[_ Hw2] _].
        rewrite (merged_all_items numBins _ _ Hw1 Hw2).
        by rewrite <- !app_assoc.
      + rewrite Hp. apply Forall_cons in Hgood as [(_ & Hv1 & Hc1) Hgood].
        apply Forall_cons in Hgood as [(_ & Hv2 & Hc2) Hgood].
        constructor; [|done]. split; [apply sort_ascending|]. simpl.
        destruct (merged_consistent (part e1) (part e2)) as [Hmv Hmc];
          [congruence|done..|].
        split; [congruence|done].
    - split.
      + rewrite (heap_items_perm _ _ Hperm).
        by rewrite (seed_entries_items _ _ _ _ Hc).
      + rewrite Hperm. clear -Hc Hv. generalize 0%nat.
        induction Hv as [|item rest Hitem _ IH]; intros c; simpl; constructor.
        * split; [by eapply single_fresh_ascending|].
          by eapply single_fresh_consistent.
        * apply IH. }
  destruct HQ as [Hitems Hgood].
  apply Forall_cons in Hgood as [(Hasc & Hvf & Hcons) _].
  destruct Hinv as [_ Hf]. apply Forall_cons in Hf as [[_ [Hn Hl]] _].
  split; [done|]. split; [lia|]. split; [|done].
  unfold heap_items in Hitems. simpl in Hitems. by rewrite app_nil_r in Hitems.
Qed.

(** ** Empty input *)

(** C2, as the code has it.  On an empty [items] nothing fails before or
    in the merge loop: seeding leaves [partitions] empty, the loop makes no
    pass, and the failure is the [IndexError] of reading [partitions[0]]
    at line 37. *)
Theorem kk_empty_items_fails_after_loop (bins : Bins) (valueof : Item -> Z) :
  seed bins valueof [] [] 0 = Ok ([], 0%nat)
  /\ loop_count [] = 0%nat
  /\ merge_loop bins (loop_count []) ([], 0%nat) = Ok ([], 0%nat)
  /\ final_partition [] = Err IndexError
  /\ kk bins [] valueof = Err IndexError
  /\ (forall numbins,
       partition numbins [] valueof
       = if numbins <=? 0 then Err InvalidConfiguration else Err IndexError).
Proof.
  repeat split. intros numbins. unfold partition, create_empty_bins.
  by destruct (numbins <=? 0).
Qed.

(** ** The merge rule *)

(** C3. A merge of two [K]-bin partitions [A] (first popped) and [B]
    (second popped) joins, for every [i] in [0, K), the bin [K-1-i] of [A]
    with the bin [i] of [B]; the pass of the loop then goes on with the
    result sorted in ascending order of sum, and with nothing else. *)
Theorem merge_pairs_opposite_ranks_then_sorts
    (K : Z) (bins : Bins) (c : nat) (e1 e2 : entry) (h : list entry) :
  wf K bins -> wf K (part e1) -> wf K (part e2) ->
  exists C,
    merge bins (part e1) (part e2) = Ok C
    /\ wf K C
    /\ (forall i : nat, (i < Z.to_nat K)%nat ->
         exists a b,
           bin_list (part e1) !! (Z.to_nat K - 1 - i)%nat = Some a
           /\ bin_list (part e2) !! i = Some b
           /\ bin_list C !! (Z.to_nat K - 1 - i)%nat
              = Some (mkBin (contents a ++ contents b) (bsum a + bsum b)))
    /\ kk_iter bins (e1 :: e2 :: h, c)
       = (mx ← py_max (sums (sort C));
          mn ← py_min (sums (sort C));
          h' ← heappush h (mkEntry (- (mx - mn)) c (sort C) (sums (sort C)));
          Ok (h', S c))
    /\ ascending (sort C)
    /\ bin_list (sort C) ≡ₚ bin_list C.
Proof.
  intros Hb Hw1 Hw2.
  exists (mkBins (num (part e1)) (value_fn (part e1)) (merged_bins (part e1) (part e2))).
  pose proof (merge_spec K bins _ _ Hb Hw1 Hw2) as Hm.
  split; [done|]. split; [|split; [|split; [|split]]].
  - destruct Hw1 as [? Hl1], Hw2 as [? Hl2]. split; simpl; [done|].
    rewrite merged_bins_length; lia.
  - intros i Hi. destruct Hw1 as [_ Hl1], Hw2 as [_ Hl2].
    destruct (lookup_lt_is_Some_2 (bin_list (part e1)) (Z.to_nat K - 1 - i)%nat)
      as [a Ha]; [lia|].
    destruct (lookup_lt_is_Some_2 (bin_list (part e2)) i) as [b Hb']; [lia|].
    exists a, b. repeat split; [done..|]. simpl.
    apply merged_bins_lookup; [lia|done..].
  - unfold kk_iter. cbn [heappop mbind result_bind]. by rewrite Hm.
  - apply sort_ascending.
  - apply sort_bin_list_perm.
Qed.

(** ** Seeding *)

Lemma seed_snoc bins valueof pre item : forall h c,
  seed bins valueof (pre ++ [item]) h c
  = ('(h1, c1) ← seed bins valueof pre h c;
     new_bin ← add_item_to_bin bins item (num bins - 1);
     h2 ← heappush h1 (mkEntry (- valueof item) c1 new_bin (sums new_bin));
     Ok (h2, S c1)).
Proof.
  induction pre as [|x pre IH]; intros h c; cbn [app seed].
  - cbn [mbind result_bind].
    destruct (add_item_to_bin bins item (num bins - 1)); [|done].
    cbn [mbind result_bind]. by destruct (heappush _ _).
  - destruct (add_item_to_bin bins x (num bins - 1)); [|done].
    cbn [mbind result_bind]. destruct (heappush _ _); [|done].
    cbn [mbind result_bind]. apply IH.
Qed.

(** C5. Seeding takes the items in the order given: the item of rank [j]
    gets the sequence number [j], and is pushed, with the negative of its
    value as key, in a partition that holds it alone in the last bin
    (index K-1), every other bin being empty. *)
Theorem seed_pushes_one_item_partitions
    (numBins : Z) (items : list Item) (valueof : Item -> Z) (bins : Bins) :
  create_empty_bins numBins valueof = Ok bins ->
  (exists h, seed bins valueof items [] 0 = Ok (h, length items)
     /\ h ≡ₚ seed_entries bins valueof 0 items)
  /\ (forall j item, items !! j = Some item ->
       exists e, seed_entries bins valueof 0 items !! j = Some e
         /\ key e = - valueof item
         /\ seqno e = j
         /\ num (part e) = numBins
         /\ bin_list (part e)
            = replicate (Z.to_nat numBins - 1) empty_bin ++ [mkBin [item] (valueof item)]
         /\ sums_snapshot e = sums (part e))
  /\ (forall pre item,
       seed bins valueof (pre ++ [item]) [] 0
       = ('(h1, c1) ← seed bins valueof pre [] 0;
          h2 ← heappush h1 (seed_entry bins valueof c1 item);
          Ok (h2, S c1))).
Proof.
  intros Hc. pose proof (create_empty_bins_wf _ _ _ Hc) as (HK & Hb & Hv & Hl).
  split; [|split].
  - destruct (seed_spec numBins bins valueof items HK Hb [] 0%nat (heap_inv_nil _ _))
      as (h & Hs & Hp & _).
    exists h. by split.
  - intros j item Hj. eexists. split; [by apply seed_entries_lookup|].
    simpl. repeat split; [apply Hb|].
    by apply single_fresh.
  - intros pre item. rewrite seed_snoc.
    destruct (seed bins valueof pre [] 0) as [[h1 c1]|]; [|done].
    cbn [mbind result_bind].
    rewrite add_item_to_bin_last by (destruct Hb; lia). done.
Qed.

(** ** The merge loop *)

Lemma elem_of_range n i : i ∈ range n -> 0 <= i < n.
Proof.
  unfold range. intros Hi. apply list_elem_of_fmap in Hi as (j & -> & Hj).
  apply elem_of_seq in Hj. lia.
Qed.

Lemma merge_loop_S_end bins k : forall st,
  merge_loop bins (S k) st = (st' ← merge_loop bins k st; kk_iter bins st').
Proof.
  induction k as [|k IH]; intros st.
  - cbn [merge_loop mbind result_bind]. by destruct (kk_iter bins st).
  - change (merge_loop bins (S (S k)) st)
      with (st1 ← kk_iter bins st; merge_loop bins (S k) st1).
    change (merge_loop bins (S k) st)
      with (st1 ← kk_iter bins st; merge_loop bins k st1).
    destruct (kk_iter bins st) as [st1|]; [|done].
    cbn [mbind result_bind]. apply IH.
Qed.

(** The state at the start of pass [k] of the merge loop, for [k] below the
    number of passes: at least two entries, in order. *)
Lemma merge_loop_before_pass K bins valueof items h0 k :
  1 <= K -> wf K bins ->
  seed bins valueof items [] 0 = Ok (h0, length items) ->
  heap_inv K (length items) h0 -> length h0 = length items ->
  (k < loop_count items)%nat ->
  exists e1 e2 t,
    merge_loop bins k (h0, length items) = Ok (e1 :: e2 :: t, (length items + k)%nat)
    /\ heap_inv K (length items + k) (e1 :: e2 :: t)
    /\ length (e1 :: e2 :: t) = (length items - k)%nat.
Proof.
  intros HK Hb Hseed Hinv Hlen Hk. rewrite loop_count_length in Hk.
  destruct (merge_loop_spec K bins HK Hb k h0 (length items) Hinv)
    as (h & Hloop & Hinv' & Hlen'); [lia|].
  destruct h as [|e1 [|e2 t]]; simpl in Hlen'; try lia.
  exists e1, e2, t. repeat split; try done; try apply Hinv'. simpl. lia.
Qed.

Lemma seed_entries_length bins valueof items : forall c,
  length (seed_entries bins valueof c items) = length items.
Proof. induction items as [|x t IH]; intros c; simpl; [done|]. by rewrite IH. Qed.

(** C6. From [numBins >= 1] and a non-empty [items], seeding succeeds and
    no pass of the merge loop fails: each pass starts with at least two
    entries in [partitions], so both pops succeed; every index given to
    [combine_bins] is in [0, K); the merge of two [K]-bin partitions
    succeeds; the pass and the whole loop return. *)
Theorem merge_loop_never_fails
    (numBins : Z) (items : list Item) (valueof : Item -> Z) (bins : Bins) :
  create_empty_bins numBins valueof = Ok bins ->
  items <> [] ->
  Forall (fun x => 0 <= valueof x) items ->
  exists h0,
    seed bins valueof items [] 0 = Ok (h0, length items)
    /\ (forall k, (k < loop_count items)%nat ->
         exists e1 e2 t h',
           merge_loop bins k (h0, length items)
           = Ok (e1 :: e2 :: t, (length items + k)%nat)
           /\ heappop (e1 :: e2 :: t) = Ok (e1, e2 :: t)
           /\ heappop (e2 :: t) = Ok (e2, t)
           /\ wf numBins (part e1) /\ wf numBins (part e2)
           /\ (forall i, i ∈ range (num bins) ->
                 0 <= num bins - i - 1 < numBins /\ 0 <= i < numBins)
           /\ is_Ok (merge bins (part e1) (part e2))
           /\ kk_iter bins (e1 :: e2 :: t, (length items + k)%nat)
              = Ok (h', S (length items + k)))
    /\ (forall A B, wf numBins A -> wf numBins B -> is_Ok (merge bins A B))
    /\ is_Ok (merge_loop bins (loop_count items) (h0, length items))
    /\ is_Ok (kk bins items valueof).
Proof.
  intros Hc Hne _.
  pose proof (create_empty_bins_wf _ _ _ Hc) as (HK & Hb & _ & _).
  destruct (kk_run numBins bins valueof items HK Hb Hne)
    as (h0 & e & Hseed & Hperm & Hinv0 & Hloop & Hinv & Hkk).
  assert (Hlen0 : length h0 = length items)
    by (by rewrite Hperm, seed_entries_length).
  exists h0. split; [done|]. split; [|split; [|split]].
  - intros k Hk.
    destruct (merge_loop_before_pass numBins bins valueof items h0 k)
      as (e1 & e2 & t & Hl & Hi & _); try done.
    destruct (kk_iter_spec numBins bins _ e1 e2 t HK Hb Hi) as (h' & Hit & _).
    assert (Hw1 : wf numBins (part e1)).
    { destruct Hi as [_ Hf]. by apply Forall_cons in Hf as [[_ ?] _]. }
    assert (Hw2 : wf numBins (part e2)).
    { apply heap_inv_tail in Hi. destruct Hi as [_ Hf].
      by apply Forall_cons in Hf as [[_ ?] _]. }
    exists e1, e2, t, h'.
    split; [done|]. split; [done|]. split; [done|]. split; [done|].
    split; [done|]. split; [|split; [|done]].
    + intros i Hr. apply elem_of_range in Hr. destruct Hb. lia.
    + eexists. by eapply merge_spec.
  - intros A B HA HB. eexists. by eapply merge_spec.
  - by eexists.
  - by eexists.
Qed.

(** C4, as the code has it.  For [n >= 1] items the merge loop makes
    exactly [n - 1] passes.  Pass [k] starts with [n - k] entries; it pops
    the least entry in (key, sequence number) order, then the least of the
    rest -- the two lowest keys, not the two highest --, merges their
    partitions and pushes one entry, whose key is the negative of the
    largest sum minus the smallest sum of the merged partition.  After the
    [n - 1] passes one entry is left, and its partition is the result. *)
Theorem merge_loop_pops_two_least_and_pushes_spread
    (numBins : Z) (items : list Item) (valueof : Item -> Z) (bins : Bins) :
  create_empty_bins numBins valueof = Ok bins ->
  items <> [] ->
  loop_count items = (length items - 1)%nat
  /\ exists h0,
      seed bins valueof items [] 0 = Ok (h0, length items)
      /\ length h0 = length items
      /\ (forall k, (k < length items - 1)%nat ->
           exists e1 e2 t C mx mn h',
             merge_loop bins k (h0, length items)
             = Ok (e1 :: e2 :: t, (length items + k)%nat)
             /\ length (e1 :: e2 :: t) = (length items - k)%nat
             /\ heappop (e1 :: e2 :: t) = Ok (e1, e2 :: t)
             /\ heappop (e2 :: t) = Ok (e2, t)
             /\ entry_lex e1 e2
             /\ Forall (entry_lex e2) t
             /\ merge bins (part e1) (part e2) = Ok C
             /\ (mx ∈ sums (sort C) /\ Forall (fun s => s <= mx) (sums (sort C)))
             /\ (mn ∈ sums (sort C) /\ Forall (fun s => mn <= s) (sums (sort C)))
             /\ heappush t (mkEntry (- (mx - mn)) (length items + k) (sort C)
                              (sums (sort C))) = Ok h'
             /\ merge_loop bins (S k) (h0, length items)
                = Ok (h', S (length items + k))
             /\ length h' = (length items - k - 1)%nat)
      /\ exists e,
          merge_loop bins (length items - 1) (h0, length items)
          = Ok ([e], (length items + (length items - 1))%nat)
          /\ kk bins items valueof = Ok (part e).
Proof.
  intros Hc Hne.
  pose proof (create_empty_bins_wf _ _ _ Hc) as (HK & Hb & _ & _).
  destruct (kk_run numBins bins valueof items HK Hb Hne)
    as (h0 & e & Hseed & Hperm & Hinv0 & Hloop & Hinv & Hkk).
  assert (Hlen0 : length h0 = length items)
    by (by rewrite Hperm, seed_entries_length).
  split; [apply loop_count_length|].
  exists h0. split; [done|]. split; [done|]. split.
  - intros k Hk.
    destruct (merge_loop_before_pass numBins bins valueof items h0 k)
      as (e1 & e2 & t & Hl & Hi & Hlen); try done.
    { rewrite loop_count_length. lia. }
    destruct (kk_iter_spec numBins bins _ e1 e2 t HK Hb Hi)
      as (h' & Hit & Hpush & Hp & Hi').
    assert (Hw1 : wf numBins (part e1)).
    { destruct Hi as [_ Hf]. by apply Forall_cons in Hf as [[_ ?] _]. }
    assert (Hw2 : wf numBins (part e2)).
    { apply heap_inv_tail in Hi. destruct Hi as [_ Hf].
      by apply Forall_cons in Hf as [[_ ?] _]. }
    pose proof (merged_wf numBins _ _ Hw1 Hw2) as Hwm.
    destruct (py_max_min_spread numBins _ HK Hwm) as (mx & mn & Hmx & Hmn & Hsp).
    exists e1, e2, t,
      (mkBins (num (part e1)) (value_fn (part e1)) (merged_bins (part e1) (part e2))),
      mx, mn, h'.
    destruct Hi as [Hs _].
    apply StronglySorted_inv in Hs as [Hs H1].
    apply StronglySorted_inv in Hs as [_ H2].
    apply Forall_cons in H1 as [H12 _].
    split; [done|]. split; [done|]. split; [done|]. split; [done|].
    split; [done|]. split; [done|].
    split; [by eapply merge_spec|].
    split; [by apply py_max_spec|]. split; [by apply py_min_spec|].
    split; [by rewrite Hsp|].
    split.
    + rewrite merge_loop_S_end, Hl. done.
    + rewrite Hp. simpl in *. lia.
  - exists e. rewrite loop_count_length in Hloop. by split.
Qed.

(** ** Sequence numbers and the order of the entries *)

Lemma order_inv_nil c : order_inv c [].
Proof. repeat split; constructor. Qed.

Lemma order_inv_tail c e h : order_inv c (e :: h) -> order_inv c h.
Proof.
  intros (Hs & Hf & Hn). apply StronglySorted_inv in Hs as [Hs _].
  apply Forall_cons in Hf as [_ Hf]. simpl in Hn. apply NoDup_cons in Hn as [_ Hn].
  done.
Qed.

Lemma order_inv_push c h e :
  order_inv c h -> seqno e = c ->
  exists h', heappush h e = Ok h' /\ h' ≡ₚ e :: h /\ order_inv (S c) h'.
Proof.
  intros (Hs & Hf & Hn) Hc.
  destruct (heappush_spec h e Hs) as (h' & Hpush & Hp & Hs').
  { eapply Forall_impl; [exact Hf|]. simpl. intros x Hx. lia. }
  exists h'. repeat split; [done..| |].
  - rewrite Hp. constructor; [lia|].
    eapply Forall_impl; [exact Hf|]. simpl. intros x Hx. lia.
  - rewrite Hp. simpl. apply NoDup_cons. split; [|done].
    intros Hin. apply list_elem_of_fmap in Hin as (x & Hx & Hin).
    eapply Forall_forall in Hf; [|exact Hin]. simpl in Hf. lia.
Qed.

Lemma order_inv_distinct c h a b i j :
  order_inv c h -> h !! i = Some a -> h !! j = Some b -> i <> j ->
  seqno a <> seqno b.
Proof.
  intros (_ & _ & Hn) Ha Hb Hij Heq. apply Hij.
  eapply NoDup_lookup; [exact Hn|..].
  - by rewrite list_lookup_fmap, Ha.
  - rewrite list_lookup_fmap, Hb. simpl. by rewrite Heq.
Qed.

Lemma seed_order bins valueof items : forall h c,
  order_inv c h ->
  (exists h', seed bins valueof items h c = Ok (h', (c + length items)%nat)
     /\ order_inv (c + length items) h')
  \/ seed bins valueof items h c = Err IndexError.
Proof.
  induction items as [|item rest IH]; intros h c Hinv; cbn [seed].
  - left. exists h. by rewrite Nat.add_0_r.
  - unfold add_item_to_bin. destruct (in_range _ _); [|by right].
    cbn [mbind result_bind].
    match goal with |- context [heappush h ?e] =>
      destruct (order_inv_push c h e Hinv) as (h1 & -> & _ & Hinv1); [done|] end.
    cbn [mbind result_bind].
    destruct (IH h1 (S c) Hinv1) as [(h' & Hs & Hi)|Herr]; [left|by right].
    exists h'. simpl. by replace (c + S (length rest))%nat with (S c + length rest)%nat by lia.
Qed.

Lemma combine_all_not_TypeError K indices : forall p q,
  combine_all K indices p q <> Err TypeError.
Proof.
  induction indices as [|i rest IH]; intros p q; cbn [combine_all]; [done|].
  unfold combine_bins. destruct (_ && _); [|done].
  destruct (_ !! _); [|done]. cbn [mbind result_bind]. apply IH.
Qed.

Lemma kk_iter_order bins c h :
  order_inv c h ->
  (exists h', kk_iter bins (h, c) = Ok (h', S c) /\ order_inv (S c) h')
  \/ (exists e, kk_iter bins (h, c) = Err e /\ e <> TypeError).
Proof.
  intros Hinv. unfold kk_iter.
  destruct h as [|e1 [|e2 t]]; cbn [heappop mbind result_bind];
    [right; exists IndexError; by split..|].
  unfold merge.
  pose proof (combine_all_not_TypeError (num bins) (range (num bins)) (part e1) (part e2)).
  destruct (combine_all _ _ _ _) as [C|err]; cbn [mbind result_bind];
    [|right; exists err; split; [done|congruence]].
  destruct (py_max _) as [mx|] eqn:Hmx; cbn [mbind result_bind].
  2:{ right. destruct (sums (sort C)); [|done]. injection Hmx as <-.
      exists ValueError. by split. }
  destruct (py_min _) as [mn|] eqn:Hmn; cbn [mbind result_bind].
  2:{ right. destruct (sums (sort C)); [|done]. injection Hmn as <-.
      exists ValueError. by split. }
  do 2 apply order_inv_tail in Hinv.
  match goal with |- context [heappush t ?e] =>
    destruct (order_inv_push c t e Hinv) as (h' & -> & _ & Hinv'); [done|] end.
  left. by exists h'.
Qed.

Lemma merge_loop_order bins k : forall c h,
  order_inv c h ->
  (exists h', merge_loop bins k (h, c) = Ok (h', (c + k)%nat) /\ order_inv (c + k) h')
  \/ (exists e, merge_loop bins k (h, c) = Err e /\ e <> TypeError).
Proof.
  induction k as [|k IH]; intros c h Hinv; cbn [merge_loop].
  - left. exists h. by rewrite Nat.add_0_r.
  - destruct (kk_iter_order bins c h Hinv) as [(h1 & -> & Hinv1)|(e & -> & He)];
      cbn [mbind result_bind]; [|right; by exists e].
    destruct (IH (S c) h1 Hinv1) as [(h' & Hl & Hi)|Herr]; [left|by right].
    exists h'. by replace (c + S k)%nat with (S c + k)%nat by lia.
Qed.

(** ** The states of a run *)

Lemma reachable_order bins valueof items h c :
  reachable bins valueof items (h, c) -> order_inv c h.
Proof.
  inversion 1 as [pre suf st Hi Hs|k st0 st Hk Hs Hl]; subst.
  - destruct (seed_order bins valueof pre [] 0%nat (order_inv_nil _))
      as [(h' & Hs' & Hinv)|Herr]; [|congruence].
    rewrite Hs in Hs'. by injection Hs' as -> ->.
  - destruct (seed_order bins valueof items [] 0%nat (order_inv_nil _))
      as [(h0 & Hs' & Hinv0)|Herr]; [|congruence].
    rewrite Hs in Hs'. injection Hs' as ->.
    destruct (merge_loop_order bins k _ h0 Hinv0) as [(h' & Hl' & Hinv)|(e & Hl' & _)];
      cbn [Nat.add] in Hl'; rewrite Hl in Hl'; [|done].
    by injection Hl' as -> ->.
Qed.

(** C9. In every state of a run the sequence numbers in [partitions] are
    pairwise distinct and below the counter, which is the number the next
    push gets.  So two entries always compare by key, then by sequence
    number, and no comparison goes on to the partitions (the solver never
    fails with [TypeError]); and [heappop] takes out the least entry, which
    among the entries of the same key is the one pushed first. *)
Theorem heap_entries_ordered_by_key_then_seqno
    (bins : Bins) (items : list Item) (valueof : Item -> Z) :
  kk bins items valueof <> Err TypeError
  /\ forall h c, reachable bins valueof items (h, c) ->
       NoDup (seqno <$> h)
       /\ Forall (fun e => (seqno e < c)%nat) h
       /\ (forall i j a b, h !! i = Some a -> h !! j = Some b -> i <> j ->
             (entry_lt a b = Ok true /\ entry_lex a b /\ ~ entry_lex b a)
             \/ (entry_lt a b = Ok false /\ entry_lex b a /\ ~ entry_lex a b))
       /\ (forall e, seqno e = c ->
             is_Ok (heappush h e)
             /\ forall a, a ∈ h ->
                  entry_lt e a <> Err TypeError /\ entry_lt a e <> Err TypeError)
       /\ (forall e rest, heappop h = Ok (e, rest) ->
             Forall (entry_lex e) rest
             /\ forall x, x ∈ rest -> key x = key e -> (seqno e < seqno x)%nat).
Proof.
  split.
  - unfold kk.
    destruct (seed_order bins valueof items [] 0%nat (order_inv_nil _))
      as [(h0 & -> & Hinv0) | ->]; [|done].
    cbn [mbind result_bind].
    destruct (merge_loop_order bins (loop_count items) _ h0 Hinv0)
      as [(h' & -> & _)|(e & -> & He)]; cbn [mbind result_bind fst].
    + by destruct h'.
    + congruence.
  - intros h c Hr. apply reachable_order in Hr as Hinv.
    pose proof Hinv as (Hs & Hf & Hn).
    split; [done|]. split; [done|]. split; [|split].
    + intros i j a b Ha Hb Hij.
      pose proof (order_inv_distinct c h a b i j Hinv Ha Hb Hij) as Hne.
      destruct (entry_lex_total a b Hne) as [Hlt|Hlt]; [left|right].
      * split; [by apply entry_lt_true|]. split; [done|].
        intros Hba. by apply (entry_lex_irrefl a), entry_lex_trans with b.
      * split; [by apply entry_lt_false|]. split; [done|].
        intros Hab. by apply (entry_lex_irrefl a), entry_lex_trans with b.
    + intros e He. split.
      * destruct (order_inv_push c h e Hinv He) as (h' & Hp & _). by exists h'.
      * intros a Ha. eapply Forall_forall in Hf; [|exact Ha]. simpl in Hf.
        rewrite !entry_lt_TypeError. lia.
    + intros e rest Hpop. destruct h as [|x t]; [done|].
      injection Hpop as -> ->.
      apply StronglySorted_inv in Hs as [_ Hall]. split; [done|].
      intros x Hx Hk. eapply Forall_forall in Hall; [|exact Hx].
      unfold entry_lex in Hall. lia.
Qed.

(** C10. With empty bins to start from and values that are never negative,
    every partition is in ascending order of sum when it is pushed: the
    one seeded for an item, and the one pushed after a merge.  So every
    partition held in [partitions], in every state of a run, is in
    ascending order, and so are the two that a pass of the merge loop
    pops. *)
Theorem pushed_partitions_are_ascending
    (numBins : Z) (items : list Item) (valueof : Item -> Z) (bins : Bins) :
  create_empty_bins numBins valueof = Ok bins ->
  Forall (fun x => 0 <= valueof x) items ->
  (forall c item, item ∈ items -> ascending (part (seed_entry bins valueof c item)))
  /\ (forall c p q, ascending (part (merged_entry c p q)))
  /\ (forall st, reachable bins valueof items st ->
        Forall (fun e => ascending (part e)) (fst st))
  /\ (forall h c e1 h1 e2 h2, reachable bins valueof items (h, c) ->
        heappop h = Ok (e1, h1) -> heappop h1 = Ok (e2, h2) ->
        ascending (part e1) /\ ascending (part e2)).
Proof.
  intros Hc Hv.
  pose proof (create_empty_bins_wf _ _ _ Hc) as (HK & Hb & _ & _).
  assert (Hreach : forall st, reachable bins valueof items st ->
            Forall (fun e => ascending (part e)) (fst st)).
  { intros st Hr. destruct Hr as [pre suf st -> Hs|k st0 st Hk Hs Hl].
    - apply Forall_app in Hv as [Hv _].
      destruct (seed_spec numBins bins valueof pre HK Hb [] 0%nat (heap_inv_nil _ _))
        as (h & Hs' & Hp & _).
      rewrite Hs in Hs'. injection Hs' as ->. simpl. rewrite Hp.
      by eapply seed_entries_ascending.
    - destruct (seed_spec numBins bins valueof items HK Hb [] 0%nat (heap_inv_nil _ _))
        as (h0 & Hs' & Hp & Hinv0).
      rewrite Hs in Hs'. injection Hs' as ->. destruct st as [h c]. simpl.
      apply (merge_loop_preserves numBins bins
               (fun h => Forall (fun e => ascending (part e)) h) HK Hb)
        with (k := k) (h := h0) (c := (0 + length items)%nat) (c' := c);
        [|done| |done].
      + intros c0 e1 e2 t h' _ Hasc Hp'. rewrite Hp'.
        apply Forall_cons in Hasc as [_ Hasc].
        apply Forall_cons in Hasc as [_ Hasc].
        constructor; [apply sort_ascending|done].
      + rewrite Hp. by eapply seed_entries_ascending. }
  split; [|split; [|split]].
  - intros c item Hin. simpl. eapply single_fresh_ascending; [done|].
    by eapply Forall_forall in Hv.
  - intros c p q. apply sort_ascending.
  - done.
  - intros h c e1 h1 e2 h2 Hr Hp1 Hp2. apply Hreach in Hr. simpl in Hr.
    destruct h as [|x1 [|x2 t]]; try done.
    + injection Hp1 as <- <-. done.
    + injection Hp1 as <- <-. injection Hp2 as <- <-.
      apply Forall_cons in Hr as [? Hr]. by apply Forall_cons in Hr as [? _].
Qed.

(** ** The solver over any heap *)

(** The entry popped from any arrangement is the head of the ordered one. *)
Lemma pops_ordered h hf c e rest :
  h ≡ₚ hf -> order_inv c hf -> pops h e rest ->
  exists tf, hf = e :: tf /\ rest ≡ₚ tf.
Proof.
  intros Hp (Hs & _ & _) [Hh Hleast]. rewrite Hp in Hh.
  destruct hf as [|x tf].
  { apply Permutation_nil_cons in Hh. done. }
  apply StronglySorted_inv in Hs as [_ Hx].
  assert (Hxin : x ∈ e :: rest) by (rewrite <- Hh; left).
  apply elem_of_cons in Hxin as [->|Hxin].
  - exists tf. split; [done|]. by apply Permutation_cons_inv in Hh.
  - assert (Hex : entry_lex e x) by (by eapply Forall_forall in Hleast).
    assert (Hein : e ∈ x :: tf) by (rewrite Hh; left).
    apply elem_of_cons in Hein as [->|Hein].
    + by apply entry_lex_irrefl in Hex.
    + assert (Hxe : entry_lex x e) by (by eapply Forall_forall in Hx).
      destruct (entry_lex_irrefl e). by apply entry_lex_trans with x.
Qed.

Lemma seed_any_seed bins valueof items st st' :
  seed_any bins valueof items st st' ->
  forall hf, fst st ≡ₚ hf -> order_inv (snd st) hf ->
  exists hf', seed bins valueof items hf (snd st) = Ok (hf', snd st')
    /\ fst st' ≡ₚ hf' /\ order_inv (snd st') hf'.
Proof.
  induction 1 as [st|item rest h c new_bin h1 st' Hadd Hpush _ IH];
    intros hf Hp Hinv; cbn [seed fst snd] in *.
  - by exists hf.
  - rewrite Hadd. cbn [mbind result_bind].
    destruct (order_inv_push c hf (mkEntry (- valueof item) c new_bin (sums new_bin)) Hinv)
      as (hf1 & -> & Hp1 & Hinv1); [done|].
    cbn [mbind result_bind]. apply IH; [|done].
    unfold pushes in Hpush. by rewrite Hpush, Hp1, Hp.
Qed.

Lemma iter_any_iter bins st st' :
  iter_any bins st st' ->
  forall hf, fst st ≡ₚ hf -> order_inv (snd st) hf ->
  exists hf', kk_iter bins (hf, snd st) = Ok (hf', snd st')
    /\ fst st' ≡ₚ hf' /\ order_inv (snd st') hf'.
Proof.
  destruct 1 as [h c e1 h1 e2 h2 bin1 mx mn h3 Hp1 Hp2 Hm Hmx Hmn Hpush].
  intros hf Hp Hinv. cbn [fst snd] in *.
  destruct (pops_ordered h hf c e1 h1 Hp Hinv Hp1) as (tf & -> & Hp1').
  apply order_inv_tail in Hinv as Hinv1.
  destruct (pops_ordered h1 tf c e2 h2 Hp1' Hinv1 Hp2) as (tf2 & -> & Hp2').
  apply order_inv_tail in Hinv1 as Hinv2.
  unfold kk_iter. cbn [heappop mbind result_bind]. rewrite Hm.
  cbn [mbind result_bind]. rewrite Hmx. cbn [mbind result_bind].
  rewrite Hmn. cbn [mbind result_bind].
  destruct (order_inv_push c tf2
              (mkEntry (- (mx - mn)) c (sort bin1) (sums (sort bin1))) Hinv2)
    as (hf3 & -> & Hp3 & Hinv3); [done|].
  exists hf3. split; [done|]. split; [|done].
  unfold pushes in Hpush. by rewrite Hpush, Hp3, Hp2'.
Qed.

Lemma loop_any_loop bins k st st' :
  loop_any bins k st st' ->
  forall hf, fst st ≡ₚ hf -> order_inv (snd st) hf ->
  exists hf', merge_loop bins k (hf, snd st) = Ok (hf', snd st')
    /\ fst st' ≡ₚ hf' /\ order_inv (snd st') hf'.
Proof.
  induction 1 as [st|k st st1 st' Hit _ IH]; intros hf Hp Hinv;
    cbn [merge_loop].
  - by exists hf.
  - destruct (iter_any_iter bins st st1 Hit hf Hp Hinv) as (hf1 & -> & Hp1 & Hinv1).
    cbn [mbind result_bind]. by apply IH.
Qed.

(** Every run over any heap ends with the partition that [kk] returns. *)
Lemma kk_any_kk bins items valueof p :
  kk_any bins items valueof p -> kk bins items valueof = Ok p.
Proof.
  intros (st & st' & e & rest & Hseed & Hloop & Hpop & ->).
  destruct (seed_any_seed _ _ _ _ _ Hseed [] (reflexivity _) (order_inv_nil _))
    as (hf & Hs & Hp & Hinv).
  destruct (loop_any_loop _ _ _ _ Hloop hf Hp Hinv) as (hf' & Hl & Hp' & Hinv').
  destruct (pops_ordered _ _ _ _ _ Hp' Hinv' Hpop) as (tf & -> & _).
  unfold kk. cbn [fst snd] in Hs. rewrite Hs. cbn [mbind result_bind].
  rewrite Hl. done.
Qed.

Lemma heappush_perm h e : forall h',
  heappush h e = Ok h' -> h' ≡ₚ e :: h.
Proof.
  induction h as [|x t IH]; intros h'; cbn [heappush].
  - by intros [= <-].
  - destruct (entry_lt e x) as [[|]|]; cbn [mbind result_bind]; [|..|done].
    + by intros [= <-].
    + destruct (heappush t e) as [t'|]; [|done]. cbn [mbind result_bind].
      intros [= <-]. rewrite (IH t' eq_refl). apply perm_swap.
Qed.

Lemma heappop_pops c h e rest :
  order_inv c h -> heappop h = Ok (e, rest) -> pops h e rest.
Proof.
  intros (Hs & _ & _) Hpop. destruct h as [|x t]; [done|].
  injection Hpop as -> ->. apply StronglySorted_inv in Hs as [_ Hall]. by split.
Qed.

Lemma seed_seed_any bins valueof items : forall h c st',
  seed bins valueof items h c = Ok st' ->
  seed_any bins valueof items (h, c) st'.
Proof.
  induction items as [|item rest IH]; intros h c st'; cbn [seed].
  - intros [= <-]. constructor.
  - destruct (add_item_to_bin bins item (num bins - 1)) as [new_bin|] eqn:Hadd;
      [|done]. cbn [mbind result_bind].
    destruct (heappush h _) as [h1|] eqn:Hpush; [|done]. cbn [mbind result_bind].
    intros Hs. econstructor; [exact Hadd| |by apply IH].
    by apply heappush_perm.
Qed.

Lemma kk_iter_iter_any bins c h st' :
  order_inv c h -> kk_iter bins (h, c) = Ok st' -> iter_any bins (h, c) st'.
Proof.
  intros Hinv. unfold kk_iter.
  destruct h as [|e1 [|e2 t]]; cbn [heappop mbind result_bind]; [done..|].
  destruct (merge bins (part e1) (part e2)) as [bin1|] eqn:Hm; [|done].
  cbn [mbind result_bind].
  destruct (py_max _) as [mx|] eqn:Hmx; [|done]. cbn [mbind result_bind].
  destruct (py_min _) as [mn|] eqn:Hmn; [|done]. cbn [mbind result_bind].
  destruct (heappush t _) as [h3|] eqn:Hpush; [|done]. cbn [mbind result_bind].
  intros [= <-].
  apply iter_any_intro with e1 (e2 :: t) e2 t bin1 mx mn; try done.
  - by eapply heappop_pops.
  - apply order_inv_tail in Hinv. by eapply heappop_pops.
  - by apply heappush_perm.
Qed.

Lemma merge_loop_loop_any bins k : forall c h st',
  order_inv c h -> merge_loop bins k (h, c) = Ok st' ->
  loop_any bins k (h, c) st'.
Proof.
  induction k as [|k IH]; intros c h st' Hinv; cbn [merge_loop].
  - intros [= <-]. constructor.
  - destruct (kk_iter_order bins c h Hinv) as [(h1 & Hit & Hinv1)|(e & -> & _)];
      [|done].
    rewrite Hit. cbn [mbind result_bind]. intros Hl.
    econstructor; [by apply kk_iter_iter_any|by apply IH].
Qed.

(** [kk] is one of the runs over any heap. *)
Lemma kk_kk_any bins items valueof p :
  kk bins items valueof = Ok p -> kk_any bins items valueof p.
Proof.
  unfold kk.
  destruct (seed_order bins valueof items [] 0%nat (order_inv_nil _))
    as [(h0 & Hs & Hinv0) | ->]; [|done].
  rewrite Hs. cbn [mbind result_bind].
  destruct (merge_loop_order bins (loop_count items) _ h0 Hinv0)
    as [(h' & Hl & Hinv')|(e & -> & _)]; [|done].
  rewrite Hl. cbn [mbind result_bind fst].
  destruct h' as [|e t] eqn:Hh; [done|]. intros [= <-].
  exists (h0, (0 + length items)%nat), (e :: t, (0 + length items + loop_count items)%nat), e, t.
  split; [by apply seed_seed_any|]. split; [by apply merge_loop_loop_any|].
  split; [|done]. by eapply heappop_pops.
Qed.

(** C8. The solver is deterministic: whatever the arrangement that the
    heap keeps its entries in, two runs on the same bins, the same items in
    the same order and the same value function end with the same
    partition -- the same bins, with the same contents, in the same
    order --, which is the one that [kk] returns. *)
Theorem kk_deterministic
    (bins : Bins) (items : list Item) (valueof : Item -> Z) (p1 p2 : Bins) :
  kk_any bins items valueof p1 ->
  kk_any bins items valueof p2 ->
  p1 = p2 /\ kk bins items valueof = Ok p1.
Proof.
  intros H1 H2. apply kk_any_kk in H1, H2. split; congruence.
Qed.

(** * Further properties of the solver *)

(** ** Bins that already hold items *)

Lemma alter_last {A} (f : A -> A) (l : list A) (x : A) :
  alter f (length l) (l ++ [x]) = l ++ [f x].
Proof.
  replace (length l) with (length l + 0)%nat at 1 by lia.
  by rewrite alter_app_r.
Qed.

Lemma wf_snoc K bins :
  1 <= K -> wf K bins ->
  exists l b, bin_list bins = l ++ [b] /\ length l = Z.to_nat (K - 1).
Proof.
  intros HK [_ Hlen].
  destruct (bin_list bins) as [|x t] eqn:E using rev_ind; simpl in Hlen; [lia|].
  exists t, x. split; [done|]. rewrite length_app in Hlen. simpl in Hlen. lia.
Qed.

Lemma single_snoc K bins item l b :
  wf K bins -> bin_list bins = l ++ [b] -> length l = Z.to_nat (K - 1) ->
  bin_list (single bins item) = l ++ [bin_add (value_fn bins item) item b].
Proof.
  intros [Hn _] Hl Hlen. unfold single. simpl.
  rewrite Hn, Hl, <- Hlen. apply alter_last.
Qed.

Lemma single_all_items K bins item :
  1 <= K -> wf K bins ->
  all_items (single bins item) = all_items bins ++ [item].
Proof.
  intros HK Hb. destruct (wf_snoc K bins HK Hb) as (l & b & Hl & Hlen).
  unfold all_items. rewrite (single_snoc K bins item l b Hb Hl Hlen), Hl.
  rewrite !fmap_app, !concat_app. simpl. by rewrite !app_nil_r, app_assoc.
Qed.

Lemma single_consistent K bins item :
  1 <= K -> wf K bins -> consistent bins ->
  value_fn (single bins item) = value_fn bins /\ consistent (single bins item).
Proof.
  intros HK Hb Hc. split; [done|].
  destruct (wf_snoc K bins HK Hb) as (l & b & Hl & Hlen).
  unfold consistent in *. rewrite (single_snoc K bins item l b Hb Hl Hlen).
  rewrite Hl in Hc. apply Forall_app in Hc as [Hc1 Hc2].
  apply Forall_app. split; [done|].
  apply Forall_cons in Hc2 as [Hc2 _].
  repeat constructor. simpl. rewrite sum_values_app, Hc2. simpl. lia.
Qed.

Lemma seed_entries_heap_items K bins valueof items :
  1 <= K -> wf K bins ->
  forall c, heap_items (seed_entries bins valueof c items)
            ≡ₚ items ++ concat (replicate (length items) (all_items bins)).
Proof.
  intros HK Hb. induction items as [|item rest IH]; intros c; [done|].
  unfold heap_items in *. simpl. rewrite IH.
  rewrite (single_all_items K bins item HK Hb).
  rewrite <- !app_assoc. simpl. rewrite <- Permutation_middle. constructor.
  rewrite !app_assoc. f_equiv. apply Permutation_app_comm.
Qed.

Lemma merge_loop_heap_items K bins k h c h' c' :
  1 <= K -> wf K bins -> heap_inv K c h ->
  merge_loop bins k (h, c) = Ok (h', c') ->
  heap_items h' ≡ₚ heap_items h.
Proof.
  intros HK Hb Hinv Hl.
  apply (merge_loop_preserves K bins (fun x => heap_items x ≡ₚ heap_items h) HK Hb)
    with (k := k) (h := h) (c := c) (c' := c'); [|done..].
  intros c0 e1 e2 t h1 Hi Hit Hp.
  rewrite (heap_items_perm _ _ Hp), <- Hit. unfold heap_items. simpl.
  destruct Hi as [_ Hf].
  apply Forall_cons in Hf as [[_ Hw1] Hf].
  apply Forall_cons in Hf as [[_ Hw2] _].
  rewrite (merged_all_items K _ _ Hw1 Hw2). by rewrite <- !app_assoc.
Qed.

(** A property of partitions that merging keeps holds of every partition
    that the merge loop leaves in [partitions]. *)
Lemma merge_loop_Forall K bins (P : Bins -> Prop) k h c h' c' :
  1 <= K -> wf K bins ->
  (forall p q, wf K p -> wf K q -> P p -> P q -> P (merged p q)) ->
  heap_inv K c h -> Forall (fun e => P (part e)) h ->
  merge_loop bins k (h, c) = Ok (h', c') ->
  Forall (fun e => P (part e)) h'.
Proof.
  intros HK Hb HP Hinv HF Hl.
  apply (merge_loop_preserves K bins (fun x => Forall (fun e => P (part e)) x) HK Hb)
    with (k := k) (h := h) (c := c) (c' := c'); [|done..].
  intros c0 e1 e2 t h1 Hi Hall Hp. rewrite Hp.
  destruct Hi as [_ Hf].
  apply Forall_cons in Hf as [[_ Hw1] Hf].
  apply Forall_cons in Hf as [[_ Hw2] _].
  apply Forall_cons in Hall as [H1 Hall].
  apply Forall_cons in Hall as [H2 Hall].
  constructor; [|done]. simpl. by apply HP.
Qed.

Lemma seed_entries_Forall bins valueof (P : Bins -> Prop) items :
  (forall item, item ∈ items -> P (single bins item)) ->
  forall c, Forall (fun e => P (part e)) (seed_entries bins valueof c items).
Proof.
  induction items as [|x rest IH]; intros HP c; simpl; constructor.
  - simpl. apply HP. left.
  - apply IH. intros item Hin. apply HP. by right.
Qed.

Lemma kk_filled_bins_spec
    (K : Z) (bins : Bins) (items : list Item) (valueof : Item -> Z) :
  1 <= K -> wf K bins -> consistent bins -> items <> [] ->
  exists p, kk bins items valueof = Ok p
    /\ wf K p
    /\ value_fn p = value_fn bins
    /\ consistent p
    /\ all_items p ≡ₚ items ++ concat (replicate (length items) (all_items bins)).
Proof.
  intros HK Hb Hc Hne.
  destruct (kk_run K bins valueof items HK Hb Hne)
    as (h0 & e & Hseed & Hperm & Hinv0 & Hloop & Hinv & Hkk).
  exists (part e). split; [done|].
  assert (Hgood : Forall (fun e => value_fn (part e) = value_fn bins
                                   /\ consistent (part e)) [e]).
  { apply (merge_loop_Forall K bins
             (fun p => value_fn p = value_fn bins /\ consistent p)
             (loop_count items) h0 (length items) [e]
             (length items + loop_count items)%nat HK Hb); [|done| |done].
    - intros p q _ _ [Hvp Hcp] [Hvq Hcq].
      destruct (merged_consistent p q) as [Hv Hcm]; [congruence|done..|].
      split; [congruence|done].
    - rewrite Hperm.
      apply (seed_entries_Forall bins valueof
               (fun p => value_fn p = value_fn bins /\ consistent p)).
      intros item _. by apply (single_consistent K). }
  apply Forall_cons in Hgood as [[Hv Hcons] _].
  destruct Hinv as [_ Hf]. apply Forall_cons in Hf as [[_ Hwf] _].
  split; [done|]. split; [done|]. split; [done|].
  pose proof (merge_loop_heap_items K bins _ _ _ _ _ HK Hb Hinv0 Hloop) as Hit.
  rewrite (heap_items_perm _ _ Hperm) in Hit.
  rewrite (seed_entries_heap_items K bins valueof items HK Hb) in Hit.
  unfold heap_items in Hit at 1. simpl in Hit. by rewrite app_nil_r in Hit.
Qed.

(** ** Any values *)

Lemma concat_replicate_nil {A} n : concat (replicate n (@nil A)) = [].
Proof. induction n as [|n IH]; simpl; done. Qed.

Lemma fresh_bins numbins valueof bins :
  create_empty_bins numbins valueof = Ok bins ->
  1 <= numbins /\ wf numbins bins /\ value_fn bins = valueof
  /\ consistent bins /\ all_items bins = [].
Proof.
  intros Hc. pose proof (create_empty_bins_wf _ _ _ Hc) as (HK & Hb & Hv & Hl).
  split; [done|]. split; [done|]. split; [done|]. split.
  - unfold consistent. rewrite Hl. by apply Forall_replicate.
  - unfold all_items. rewrite Hl, fmap_replicate. apply concat_replicate_nil.
Qed.

Lemma sum_values_perm valueof l1 l2 :
  l1 ≡ₚ l2 -> sum_values valueof l1 = sum_values valueof l2.
Proof. induction 1; simpl; lia. Qed.

Lemma consistent_total p :
  consistent p -> total (sums p) = sum_values (value_fn p) (all_items p).
Proof.
  unfold consistent, sums, all_items.
  induction 1 as [|b l Hb _ IH]; [done|].
  rewrite fmap_cons, (fmap_cons contents). cbn [concat].
  rewrite sum_values_app, <- IH, <- Hb. done.
Qed.

Lemma sum_values_concat_replicate valueof (n : nat) l :
  sum_values valueof (concat (replicate n l)) = Z.of_nat n * sum_values valueof l.
Proof.
  induction n as [|n IH]; [done|].
  cbn [replicate concat]. rewrite sum_values_app, IH. lia.
Qed.

(** X8. Called on bins that already hold items, with any value function
    for the keys, [kk] seeds every item on a copy of those bins: the
    result holds the items, each once, and the items that the bins held,
    each as many times as there are items; its cached sums follow the value
    function of the bins, and add up to the values of the items plus as
    many times the sums of the bins as there are items. *)
Theorem kk_on_filled_bins
    (K : Z) (bins : Bins) (items : list Item) (valueof : Item -> Z) :
  1 <= K -> wf K bins -> consistent bins -> items <> [] ->
  exists p, kk bins items valueof = Ok p
    /\ wf K p
    /\ value_fn p = value_fn bins
    /\ consistent p
    /\ all_items p ≡ₚ items ++ concat (replicate (length items) (all_items bins))
    /\ total (sums p)
       = sum_values (value_fn bins) items
         + Z.of_nat (length items) * total (sums bins).
Proof.
  intros HK Hb Hc Hne.
  destruct (kk_filled_bins_spec K bins items valueof HK Hb Hc Hne)
    as (p & Hkk & Hwf & Hv & Hcp & Hit).
  exists p. repeat (split; [done|]).
  rewrite (consistent_total p Hcp), (consistent_total bins Hc), Hv.
  rewrite (sum_values_perm _ _ _ Hit), sum_values_app.
  by rewrite sum_values_concat_replicate.
Qed.

(** From two items on, the partition returned was pushed by the last pass
    of the merge loop. *)
Lemma kk_result_is_merged K bins valueof items :
  1 <= K -> wf K bins -> (2 <= length items)%nat ->
  exists p q, wf K p /\ wf K q /\ kk bins items valueof = Ok (merged p q).
Proof.
  intros HK Hb Hn.
  assert (Hne : items <> []) by (intros ->; simpl in Hn; lia).
  destruct (kk_run K bins valueof items HK Hb Hne)
    as (h0 & e & Hseed & Hperm & Hinv0 & Hloop & Hinv & Hkk).
  assert (Hlen0 : length h0 = length items)
    by (by rewrite Hperm, seed_entries_length).
  rewrite loop_count_length in Hloop.
  destruct (length items - 1)%nat as [|k] eqn:Hk; [lia|].
  rewrite merge_loop_S_end in Hloop.
  destruct (merge_loop_spec K bins HK Hb k h0 (length items) Hinv0)
    as (h1 & Hl1 & Hinv1 & _); [lia|].
  rewrite Hl1 in Hloop. cbn [mbind result_bind] in Hloop.
  destruct (kk_iter_inv K bins _ h1 _ HK Hb Hinv1 Hloop)
    as (e1 & e2 & t & h' & -> & Heq & Hp & _).
  injection Heq as <- _.
  apply Permutation_singleton_l in Hp. injection Hp as -> _.
  destruct Hinv1 as [_ Hf].
  apply Forall_cons in Hf as [[_ Hw1] Hf].
  apply Forall_cons in Hf as [[_ Hw2] _].
  exists (part e1), (part e2). by rewrite Hkk.
Qed.

(** X2. No value is refused: for [numBins >= 1] and at least two items,
    whatever the signs of the values, the solver returns a partition of
    [numBins] bins that holds every item once, whose cached sums are the
    sums of the values, and whose bins are in ascending order of sum. *)
Theorem partition_accepts_any_values
    (numBins : Z) (items : list Item) (valueof : Item -> Z) :
  1 <= numBins -> (2 <= length items)%nat ->
  exists p, partition numBins items valueof = Ok p
    /\ num p = numBins
    /\ length (bin_list p) = Z.to_nat numBins
    /\ all_items p ≡ₚ items
    /\ consistent p
    /\ ascending p.
Proof.
  intros HK Hn. unfold partition.
  pose proof (create_empty_bins_Ok numBins valueof HK) as Hc.
  rewrite Hc. cbn [mbind result_bind].
  set (bins := mkBins numBins valueof (replicate (Z.to_nat numBins) empty_bin)) in *.
  destruct (fresh_bins _ _ _ Hc) as (_ & Hb & Hv & Hcons & Hnil).
  assert (Hne : items <> []) by (intros ->; simpl in Hn; lia).
  destruct (kk_filled_bins_spec numBins bins items valueof HK Hb Hcons Hne)
    as (p & Hkk & [Hnum Hlen] & _ & Hcp & Hit).
  destruct (kk_result_is_merged numBins bins valueof items HK Hb Hn)
    as (p1 & p2 & _ & _ & Hkk').
  exists p. split; [done|]. split; [done|]. split; [lia|]. split.
  - by rewrite Hit, Hnil, concat_replicate_nil, app_nil_r.
  - split; [done|]. rewrite Hkk in Hkk'. injection Hkk' as ->.
    apply sort_ascending.
Qed.

(** X3. The sums of the bins of the result add up to the sum of the values
    of the items, whatever the signs of the values. *)
Theorem partition_sums_add_up
    (numBins : Z) (items : list Item) (valueof : Item -> Z) :
  1 <= numBins -> items <> [] ->
  exists p, partition numBins items valueof = Ok p
    /\ total (sums p) = sum_values valueof items.
Proof.
  intros HK Hne. unfold partition.
  pose proof (create_empty_bins_Ok numBins valueof HK) as Hc.
  rewrite Hc. cbn [mbind result_bind].
  set (bins := mkBins numBins valueof (replicate (Z.to_nat numBins) empty_bin)) in *.
  destruct (fresh_bins _ _ _ Hc) as (_ & Hb & Hv & Hcons & Hnil).
  destruct (kk_filled_bins_spec numBins bins items valueof HK Hb Hcons Hne)
    as (p & Hkk & _ & Hvp & Hcp & Hit).
  exists p. split; [done|].
  rewrite (consistent_total p Hcp), Hvp, Hv.
  rewrite (sum_values_perm _ _ _ Hit), Hnil, concat_replicate_nil.
  by rewrite app_nil_r.
Qed.

(** ** One item, one bin *)

Lemma sorted_zeros_then (m : nat) (v : Z) :
  StronglySorted Z.le (replicate m 0 ++ [v]) <-> m = 0%nat \/ 0 <= v.
Proof.
  split.
  - destruct m as [|m]; [by left|]. simpl. intros Hs. right.
    apply StronglySorted_inv in Hs as [_ Hall].
    apply Forall_app in Hall as [_ Hall]. by apply Forall_cons in Hall as [? _].
  - intros H. induction m as [|m IH]; simpl.
    + repeat constructor.
    + destruct H as [?|Hv]; [done|]. constructor; [by apply IH; right|].
      apply Forall_app. split; [apply Forall_replicate; lia|by constructor].
Qed.

(** X1. With a single item the merge loop makes no pass and nothing is
    sorted: the result has the item alone in the last bin and every other
    bin empty, so that it is in ascending order of sum only if there is a
    single bin or the value is not negative. *)
Theorem partition_single_item
    (numBins : Z) (x : Item) (valueof : Item -> Z) :
  1 <= numBins ->
  exists p, partition numBins [x] valueof = Ok p
    /\ bin_list p
       = replicate (Z.to_nat numBins - 1) empty_bin ++ [mkBin [x] (valueof x)]
    /\ (ascending p <-> numBins = 1 \/ 0 <= valueof x).
Proof.
  intros HK. unfold partition.
  pose proof (create_empty_bins_Ok numBins valueof HK) as Hc.
  rewrite Hc. cbn [mbind result_bind].
  set (bins := mkBins numBins valueof (replicate (Z.to_nat numBins) empty_bin)) in *.
  exists (single bins x). split.
  - unfold kk. cbn [seed]. rewrite add_item_to_bin_last by (simpl; lia). done.
  - pose proof (single_fresh _ _ _ x Hc) as Hs. split; [done|].
    unfold ascending, sums. rewrite Hs, fmap_app, fmap_replicate. simpl.
    rewrite sorted_zeros_then. lia.
Qed.

(** X6. With a single bin, that bin holds all the items and its sum is the
    sum of their values. *)
Theorem partition_one_bin (items : list Item) (valueof : Item -> Z) :
  items <> [] ->
  exists p b, partition 1 items valueof = Ok p
    /\ bin_list p = [b]
    /\ contents b ≡ₚ items
    /\ bsum b = sum_values valueof items.
Proof.
  intros Hne. unfold partition.
  pose proof (create_empty_bins_Ok 1 valueof ltac:(lia)) as Hc.
  rewrite Hc. cbn [mbind result_bind].
  set (bins := mkBins 1 valueof (replicate (Z.to_nat 1) empty_bin)) in *.
  destruct (fresh_bins _ _ _ Hc) as (_ & Hb & Hv & Hcons & Hnil).
  destruct (kk_filled_bins_spec 1 bins items valueof ltac:(lia) Hb Hcons Hne)
    as (p & Hkk & [_ Hlen] & Hvp & Hcp & Hit).
  rewrite Hnil, concat_replicate_nil, app_nil_r in Hit.
  destruct (bin_list p) as [|b [|? ?]] eqn:Hl; simpl in Hlen; try lia.
  exists p, b. split; [done|]. split; [done|].
  unfold all_items in Hit. rewrite Hl in Hit. simpl in Hit.
  rewrite app_nil_r in Hit. split; [done|].
  unfold consistent in Hcp. rewrite Hl in Hcp.
  apply Forall_cons in Hcp as [Hcb _].
  by rewrite Hcb, Hvp, Hv, (sum_values_perm _ _ _ Hit).
Qed.

(** ** The spread of the sums *)

Lemma spread_spec p :
  sums p <> [] ->
  exists mx mn, mx ∈ sums p /\ mn ∈ sums p /\ spread p = mx - mn
    /\ Forall (fun s => mn <= s <= mx) (sums p).
Proof.
  unfold spread. destruct (sums p) as [|x t]; [done|]. intros _.
  destruct (foldl_max_spec t x) as [Hmx Hmax], (foldl_min_spec t x) as [Hmn Hmin].
  exists (foldl Z.max x t), (foldl Z.min x t). repeat split; [done..|].
  rewrite Forall_forall in *. intros s Hs. split; [by apply Hmin|by apply Hmax].
Qed.

Lemma spread_le p D :
  sums p <> [] ->
  (forall x y, x ∈ sums p -> y ∈ sums p -> x - y <= D) -> spread p <= D.
Proof.
  intros Hne H. destruct (spread_spec p Hne) as (mx & mn & Hmx & Hmn & -> & _).
  by apply H.
Qed.

Lemma spread_ge p x y :
  x ∈ sums p -> y ∈ sums p -> x - y <= spread p.
Proof.
  intros Hx Hy. assert (Hne : sums p <> []) by (intros E; rewrite E in Hx; inversion Hx).
  destruct (spread_spec p Hne) as (mx & mn & _ & _ & -> & Hall).
  rewrite Forall_forall in Hall. pose proof (Hall x Hx). pose proof (Hall y Hy). lia.
Qed.

Lemma spread_perm p q :
  bin_list p ≡ₚ bin_list q -> spread p = spread q.
Proof.
  intros Hp. assert (Hs : sums p ≡ₚ sums q) by (unfold sums; by rewrite Hp).
  destruct (sums p) as [|x t] eqn:E.
  - apply Permutation_nil_l in Hs. unfold spread. by rewrite E, <- Hs.
  - assert (Hnp : sums p <> []) by (by rewrite E).
    assert (Hnq : sums q <> []).
    { intros Hq. rewrite Hq in Hs. by apply Permutation_nil_r in Hs. }
    rewrite <- E in Hs. apply Z.le_antisymm.
    + apply spread_le; [done|]. intros a b Ha Hb.
      apply spread_ge; by rewrite <- Hs.
    + apply spread_le; [done|]. intros a b Ha Hb.
      apply spread_ge; by rewrite Hs.
Qed.

Lemma sorted_lookup_le (l : list Z) : forall i j x y,
  StronglySorted Z.le l -> (i <= j)%nat ->
  l !! i = Some x -> l !! j = Some y -> x <= y.
Proof.
  induction l as [|a l IH]; intros i j x y Hs Hij Hi Hj; [done|].
  apply StronglySorted_inv in Hs as [Hs Hall].
  destruct i as [|i], j as [|j]; simpl in *; try lia.
  - injection Hi as ->. injection Hj as ->. lia.
  - injection Hi as ->. rewrite Forall_forall in Hall.
    apply Hall. by eapply list_elem_of_lookup_2.
  - eapply IH; [done| |done..]. lia.
Qed.

Lemma merged_bins_sum_lookup (p q : Bins) (K j : nat) s :
  length (bin_list p) = K -> length (bin_list q) = K ->
  (bsum <$> merged_bins p q) !! j = Some s ->
  exists a b, sums p !! j = Some a /\ sums q !! (K - 1 - j)%nat = Some b
    /\ (j < K)%nat /\ s = a + b.
Proof.
  intros Hp Hq Hs. unfold merged_bins, sums in *.
  rewrite list_lookup_fmap, lookup_zip_with in Hs.
  destruct (bin_list p !! j) as [a|] eqn:Ha; [|done]. simpl in Hs.
  pose proof (lookup_lt_Some _ _ _ Ha) as Hj.
  rewrite reverse_lookup in Hs by lia.
  replace (length (bin_list q) - S j)%nat with (K - 1 - j)%nat in Hs by lia.
  destruct (bin_list q !! (K - 1 - j)%nat) as [b|] eqn:Hb; [|done].
  simpl in Hs. injection Hs as <-.
  exists (bsum a), (bsum b). rewrite !list_lookup_fmap, Ha, Hb.
  repeat split; lia.
Qed.

Lemma merged_spread K p q :
  1 <= K -> wf K p -> wf K q -> ascending p -> ascending q ->
  spread (merged p q) <= Z.max (spread p) (spread q).
Proof.
  intros HK [_ Hlp] [_ Hlq] Hap Haq.
  unfold merged.
  rewrite (spread_perm _ (mkBins (num p) (value_fn p) (merged_bins p q)))
    by apply sort_bin_list_perm.
  assert (Hlen : length (merged_bins p q) = Z.to_nat K)
    by (rewrite merged_bins_length; lia).
  apply spread_le.
  { unfold sums. simpl. intros E. apply (f_equal length) in E.
    rewrite length_fmap, Hlen in E. simpl in E. lia. }
  intros x y Hx Hy. unfold sums in Hx, Hy. simpl in Hx, Hy.
  apply list_elem_of_lookup in Hx as [j Hj], Hy as [i Hi].
  destruct (merged_bins_sum_lookup p q (Z.to_nat K) j x) as (aj & bj & Haj & Hbj & Hjk & ->);
    [lia..|done|].
  destruct (merged_bins_sum_lookup p q (Z.to_nat K) i y) as (ai & bi & Hai & Hbi & Hik & ->);
    [lia..|done|].
  destruct (decide (i <= j)%nat) as [Hij|Hij].
  - assert (bj <= bi)
      by (apply (sorted_lookup_le (sums q) (Z.to_nat K - 1 - j) (Z.to_nat K - 1 - i));
          [done|lia|done..]).
    pose proof (spread_ge p aj ai (list_elem_of_lookup_2 _ _ _ Haj)
                  (list_elem_of_lookup_2 _ _ _ Hai)). lia.
  - assert (aj <= ai)
      by (apply (sorted_lookup_le (sums p) j i); [done|lia|done..]).
    pose proof (spread_ge q bj bi (list_elem_of_lookup_2 _ _ _ Hbj)
                  (list_elem_of_lookup_2 _ _ _ Hbi)). lia.
Qed.

(** X9. Merging two partitions of [K] bins that are in ascending order of
    sum never widens the spread: the largest sum minus the smallest sum of
    the merged and sorted partition is at most the larger of the two
    spreads, so the key pushed for it is not below both keys of its
    operands' spreads. *)
Theorem merge_never_widens_spread (K : Z) (bins p q : Bins) :
  1 <= K -> wf K bins -> wf K p -> wf K q -> ascending p -> ascending q ->
  exists C mx mn,
    merge bins p q = Ok C
    /\ py_max (sums (sort C)) = Ok mx
    /\ py_min (sums (sort C)) = Ok mn
    /\ mx - mn <= Z.max (spread p) (spread q).
Proof.
  intros HK Hb Hp Hq Hap Haq.
  pose proof (merged_wf K _ _ Hp Hq) as Hwm.
  destruct (py_max_min_spread K _ HK Hwm) as (mx & mn & Hmx & Hmn & Hsp).
  exists (mkBins (num p) (value_fn p) (merged_bins p q)), mx, mn.
  split; [by eapply merge_spec|]. split; [done|]. split; [done|].
  rewrite Hsp. by apply (merged_spread K).
Qed.

Lemma single_fresh_spread numbins valueof bins item M :
  create_empty_bins numbins valueof = Ok bins ->
  0 <= valueof item <= M ->
  spread (single bins item) <= M.
Proof.
  intros Hc Hv. apply spread_le.
  - unfold sums. rewrite (single_fresh _ _ _ _ Hc), fmap_app. simpl.
    intros E. by apply app_eq_nil in E as [_ ?].
  - unfold sums. rewrite (single_fresh _ _ _ _ Hc), fmap_app, fmap_replicate.
    simpl. intros x y Hx Hy.
    apply elem_of_app in Hx as [Hx%elem_of_replicate_inv|Hx%list_elem_of_singleton].
    all: apply elem_of_app in Hy as [Hy%elem_of_replicate_inv|Hy%list_elem_of_singleton].
    all: lia.
Qed.

Lemma partition_spread_le
    (numBins : Z) (items : list Item) (valueof : Item -> Z) (M : Z) :
  1 <= numBins -> items <> [] ->
  Forall (fun x => 0 <= valueof x <= M) items ->
  exists p,
    partition numBins items valueof = Ok p
    /\ wf numBins p
    /\ spread p <= M.
Proof.
  intros HK Hne Hv. unfold partition.
  pose proof (create_empty_bins_Ok numBins valueof HK) as Hc.
  rewrite Hc. cbn [mbind result_bind].
  set (bins := mkBins numBins valueof (replicate (Z.to_nat numBins) empty_bin)) in *.
  destruct (fresh_bins _ _ _ Hc) as (_ & Hb & _).
  destruct (kk_run numBins bins valueof items HK Hb Hne)
    as (h0 & e & Hseed & Hperm & Hinv0 & Hloop & Hinv & Hkk).
  assert (Hgood : Forall (fun e => ascending (part e) /\ spread (part e) <= M) [e]).
  { apply (merge_loop_Forall numBins bins (fun p => ascending p /\ spread p <= M)
             (loop_count items) h0 (length items) [e]
             (length items + loop_count items)%nat HK Hb); [|done| |done].
    - intros p q Hwp Hwq [Hap Hsp] [Haq Hsq]. split; [apply sort_ascending|].
      pose proof (merged_spread numBins p q HK Hwp Hwq Hap Haq). lia.
    - rewrite Hperm.
      apply (seed_entries_Forall bins valueof (fun p => ascending p /\ spread p <= M)).
      intros item Hin. rewrite Forall_forall in Hv. specialize (Hv item Hin).
      split; [eapply single_fresh_ascending; [done|lia]|].
      by eapply single_fresh_spread. }
  apply Forall_cons in Hgood as [[_ Hsp] _].
  destruct Hinv as [_ Hf]. apply Forall_cons in Hf as [[_ Hwf] _].
  by exists (part e).
Qed.

(** X4. With values that are never negative, the largest and the smallest
    sum of the result differ by at most the largest value of an item. *)
Theorem partition_spread_at_most_largest_value
    (numBins : Z) (items : list Item) (valueof : Item -> Z) (M : Z) :
  1 <= numBins -> items <> [] ->
  Forall (fun x => 0 <= valueof x <= M) items ->
  exists p mx mn,
    partition numBins items valueof = Ok p
    /\ py_max (sums p) = Ok mx
    /\ py_min (sums p) = Ok mn
    /\ mx - mn <= M.
Proof.
  intros HK Hne Hv.
  destruct (partition_spread_le numBins items valueof M HK Hne Hv)
    as (p & Hp & Hwf & Hsp).
  destruct (py_max_min_spread numBins p HK Hwf) as (mx & mn & Hmx & Hmn & Heq).
  exists p, mx, mn. repeat split; [done..|lia].
Qed.

Lemma total_ge_min (l : list Z) mn :
  Forall (fun s => mn <= s) l -> Z.of_nat (length l) * mn <= total l.
Proof. induction 1 as [|x l Hx _ IH]; simpl; lia. Qed.

Lemma partition_total
    (numBins : Z) (items : list Item) (valueof : Item -> Z) p :
  partition numBins items valueof = Ok p -> items <> [] ->
  total (sums p) = sum_values valueof items
  /\ Z.of_nat (length (sums p)) = numBins.
Proof.
  unfold partition. intros Hp Hne.
  destruct (create_empty_bins numBins valueof) as [bins|] eqn:Hc; [|done].
  cbn [mbind result_bind] in Hp.
  destruct (fresh_bins _ _ _ Hc) as (HK & Hb & Hv & Hcons & Hnil).
  destruct (kk_filled_bins_spec numBins bins items valueof HK Hb Hcons Hne)
    as (p' & Hkk & [_ Hlen] & Hvp & Hcp & Hit).
  rewrite Hp in Hkk. injection Hkk as <-. split.
  - rewrite (consistent_total p Hcp), Hvp, Hv.
    rewrite (sum_values_perm _ _ _ Hit), Hnil, concat_replicate_nil.
    by rewrite app_nil_r.
  - unfold sums. by rewrite length_fmap.
Qed.

(** X10. With values that are never negative, the largest sum of the
    result is at most the average sum plus the largest value of an item:
    [numBins] times the largest sum less that value is at most the sum of
    all the values. *)
Theorem partition_largest_sum_bound
    (numBins : Z) (items : list Item) (valueof : Item -> Z) (M : Z) :
  1 <= numBins -> items <> [] ->
  Forall (fun x => 0 <= valueof x <= M) items ->
  exists p mx,
    partition numBins items valueof = Ok p
    /\ py_max (sums p) = Ok mx
    /\ numBins * (mx - M) <= sum_values valueof items.
Proof.
  intros HK Hne Hv.
  destruct (partition_spread_le numBins items valueof M HK Hne Hv)
    as (p & Hp & Hwf & Hsp).
  destruct (py_max_min_spread numBins p HK Hwf) as (mx & mn & Hmx & Hmn & Heq).
  destruct (partition_total numBins items valueof p Hp Hne) as [Htot Hlen].
  exists p, mx. split; [done|]. split; [done|].
  apply py_min_spec in Hmn as [_ Hall].
  pose proof (total_ge_min _ _ Hall) as Hge. rewrite Hlen, Htot in Hge. nia.
Qed.

(** X11. With two bins a merge is the differencing step of Karmarkar and
    Karp: the spread of the merged partition is the absolute value of the
    difference of the spreads of its two operands. *)
Theorem two_bins_merge_is_differencing (bins p q : Bins) :
  wf 2 bins -> wf 2 p -> wf 2 q -> ascending p -> ascending q ->
  exists C mx mn,
    merge bins p q = Ok C
    /\ py_max (sums (sort C)) = Ok mx
    /\ py_min (sums (sort C)) = Ok mn
    /\ mx - mn = Z.abs (spread p - spread q).
Proof.
  intros Hb Hp Hq Hap Haq.
  pose proof (merged_wf 2 _ _ Hp Hq) as Hwm.
  destruct (py_max_min_spread 2 _ ltac:(lia) Hwm) as (mx & mn & Hmx & Hmn & Hsp).
  exists (mkBins (num p) (value_fn p) (merged_bins p q)), mx, mn.
  split; [by eapply merge_spec|]. split; [done|]. split; [done|].
  rewrite Hsp. unfold merged.
  rewrite (spread_perm _ (mkBins (num p) (value_fn p) (merged_bins p q)))
    by apply sort_bin_list_perm.
  destruct Hp as [_ Hlp], Hq as [_ Hlq].
  unfold ascending in Hap, Haq. unfold spread, sums, merged_bins in *. simpl.
  destruct (bin_list p) as [|a0 [|a1 [|? ?]]]; simpl in Hlp; try lia.
  destruct (bin_list q) as [|b0 [|b1 [|? ?]]]; simpl in Hlq; try lia.
  simpl in *.
  apply StronglySorted_inv in Hap as [_ Hap]. apply Forall_cons in Hap as [Hap _].
  apply StronglySorted_inv in Haq as [_ Haq]. apply Forall_cons in Haq as [Haq _].
  lia.
Qed.

(** ** As many bins as items *)

Lemma alone_items (l : list Bin) :
  Forall alone l -> length (concat (contents <$> l)) = length l.
Proof.
  induction 1 as [|b l (x & Hx & _) _ IH]; [done|].
  rewrite fmap_cons. cbn [concat]. rewrite length_app, Hx, IH. done.
Qed.

Lemma one_item_each_count p e l :
  bin_list p = replicate e empty_bin ++ l -> Forall alone l ->
  length (all_items p) = length l /\ length (bin_list p) = (e + length l)%nat.
Proof.
  intros Hp Hl. unfold all_items. rewrite Hp. split.
  - rewrite fmap_app, concat_app, fmap_replicate. simpl.
    rewrite concat_replicate_nil. simpl. by apply alone_items.
  - by rewrite length_app, length_replicate.
Qed.

Lemma single_fresh_one_item_each numbins valueof bins item :
  create_empty_bins numbins valueof = Ok bins ->
  0 < valueof item ->
  one_item_each (single bins item).
Proof.
  intros Hc Hv. eexists _, _. split; [by apply single_fresh|].
  repeat constructor. by exists item.
Qed.

Lemma merged_bins_empty_or_alone (K : nat) p q ep lp eq lq :
  bin_list p = replicate ep empty_bin ++ lp -> Forall alone lp ->
  bin_list q = replicate eq empty_bin ++ lq -> Forall alone lq ->
  length (bin_list p) = K -> length (bin_list q) = K ->
  (length lp + length lq <= K)%nat ->
  Forall (fun b => b = empty_bin \/ alone b) (merged_bins p q).
Proof.
  intros Hp Hlp Hq Hlq HKp HKq Hle.
  assert (Hep : (ep + length lp = K)%nat)
    by (rewrite <- HKp, Hp, length_app, length_replicate; done).
  assert (Heq : (eq + length lq = K)%nat)
    by (rewrite <- HKq, Hq, length_app, length_replicate; done).
  apply Forall_lookup. intros j c Hc. unfold merged_bins in Hc.
  rewrite lookup_zip_with in Hc.
  destruct (bin_list p !! j) as [a|] eqn:Ha; [|done]. simpl in Hc.
  pose proof (lookup_lt_Some _ _ _ Ha) as Hj.
  rewrite reverse_lookup in Hc by lia.
  destruct (bin_list q !! (length (bin_list q) - S j)%nat) as [b|] eqn:Hb; [|done].
  simpl in Hc. injection Hc as <-.
  destruct (decide (j < ep)%nat) as [Hlt|Hge].
  - rewrite Hp, lookup_app_l in Ha by (rewrite length_replicate; lia).
    apply lookup_replicate in Ha as [-> _].
    apply list_elem_of_lookup_2 in Hb. rewrite Hq in Hb.
    apply elem_of_app in Hb as [Hb|Hb].
    + apply elem_of_replicate_inv in Hb as ->. by left.
    + right. rewrite Forall_forall in Hlq. destruct (Hlq b Hb) as (x & Hx & Hpos).
      exists x. simpl. rewrite Hx. split; [done|lia].
  - right. rewrite Hp, lookup_app_r in Ha by (rewrite length_replicate; lia).
    apply list_elem_of_lookup_2 in Ha. rewrite Forall_forall in Hlp.
    destruct (Hlp a Ha) as (x & Hx & Hpos).
    rewrite HKq in Hb.
    rewrite Hq, lookup_app_l in Hb by (rewrite length_replicate; lia).
    apply lookup_replicate in Hb as [-> _].
    exists x. simpl. rewrite Hx. split; [done|lia].
Qed.

Lemma sorted_empty_or_alone (l : list Bin) :
  StronglySorted Z.le (bsum <$> l) ->
  Forall (fun b => b = empty_bin \/ alone b) l ->
  exists e l', l = replicate e empty_bin ++ l' /\ Forall alone l'.
Proof.
  induction l as [|b l IH]; intros Hs Hf.
  - by exists 0%nat, [].
  - simpl in Hs. apply StronglySorted_inv in Hs as [Hs Hall].
    apply Forall_cons in Hf as [Hb Hf].
    destruct (IH Hs Hf) as (e & l' & -> & Hl').
    destruct Hb as [->|Hb].
    + by exists (S e), l'.
    + destruct e as [|e].
      * exists 0%nat, (b :: l'). split; [done|]. by constructor.
      * simpl in Hall. apply Forall_cons in Hall as [Hle _].
        destruct Hb as (x & _ & Hpos). simpl in Hle. lia.
Qed.

Lemma merged_one_item_each K p q :
  wf K p -> wf K q -> one_item_each p -> one_item_each q ->
  (length (all_items p) + length (all_items q) <= Z.to_nat K)%nat ->
  one_item_each (merged p q).
Proof.
  intros [_ Hlp] [_ Hlq] (ep & lp & Hp & Hap) (eq & lq & Hq & Haq) Hle.
  destruct (one_item_each_count p ep lp Hp Hap) as [Hcp _].
  destruct (one_item_each_count q eq lq Hq Haq) as [Hcq _].
  unfold one_item_each, merged, sort. simpl.
  apply sorted_empty_or_alone.
  - apply (sort_ascending (mkBins (num p) (value_fn p) (merged_bins p q))).
  - rewrite sort_bins_perm.
    apply (merged_bins_empty_or_alone (Z.to_nat K) p q ep lp eq lq); try done; lia.
Qed.

Lemma sorted_app_r (l1 l2 : list Z) :
  StronglySorted Z.le (l1 ++ l2) -> StronglySorted Z.le l2.
Proof.
  induction l1 as [|x l1 IH]; simpl; [done|].
  intros Hs. apply StronglySorted_inv in Hs as [Hs _]. by apply IH.
Qed.

Lemma alone_list_form valueof (l : list Bin) :
  Forall alone l ->
  Forall (fun b => bsum b = sum_values valueof (contents b)) l ->
  l = (fun x => mkBin [x] (valueof x)) <$> concat (contents <$> l).
Proof.
  induction 1 as [|b l (x & Hx & _) _ IH]; intros Hc; [done|].
  apply Forall_cons in Hc as [Hb Hc]. rewrite fmap_cons. cbn [concat].
  rewrite Hx.
  replace ([x] ++ concat (contents <$> l)) with (x :: concat (contents <$> l))
    by done.
  rewrite fmap_cons, <- (IH Hc). f_equal. destruct b as [cs s]. simpl in *.
  subst cs. simpl in Hb. f_equal. lia.
Qed.

(** X5. With at least as many bins as items, and values that are all
    positive, every item gets a bin of its own: the result is made of the
    empty bins followed by one bin for each item, in ascending order of
    value. *)
Theorem partition_enough_bins_one_item_each
    (numBins : Z) (items : list Item) (valueof : Item -> Z) :
  items <> [] ->
  Z.of_nat (length items) <= numBins ->
  Forall (fun x => 0 < valueof x) items ->
  exists p xs,
    partition numBins items valueof = Ok p
    /\ xs ≡ₚ items
    /\ StronglySorted Z.le (valueof <$> xs)
    /\ bin_list p
       = replicate (Z.to_nat numBins - length items) empty_bin
         ++ ((fun x => mkBin [x] (valueof x)) <$> xs).
Proof.
  intros Hne Hn Hv.
  assert (HK : 1 <= numBins) by (destruct items; simpl in *; [done|lia]).
  unfold partition.
  pose proof (create_empty_bins_Ok numBins valueof HK) as Hc.
  rewrite Hc. cbn [mbind result_bind].
  set (bins := mkBins numBins valueof (replicate (Z.to_nat numBins) empty_bin)) in *.
  destruct (fresh_bins _ _ _ Hc) as (_ & Hb & Hvb & Hcons & Hnil).
  destruct (kk_filled_bins_spec numBins bins items valueof HK Hb Hcons Hne)
    as (p & Hkk & [_ Hlen] & Hvp & Hcp & Hit).
  rewrite Hnil, concat_replicate_nil, app_nil_r in Hit.
  destruct (kk_run numBins bins valueof items HK Hb Hne)
    as (h0 & e & Hseed & Hperm & Hinv0 & Hloop & Hinv & Hkk').
  rewrite Hkk in Hkk'. injection Hkk' as ->.
  assert (HQ : (length (heap_items [e]) <= Z.to_nat numBins)%nat
               /\ Forall (fun e => one_item_each (part e) /\ ascending (part e)) [e]).
  { apply (merge_loop_preserves numBins bins
             (fun h => (length (heap_items h) <= Z.to_nat numBins)%nat
                       /\ Forall (fun e => one_item_each (part e)
                                           /\ ascending (part e)) h)
             HK Hb) with (k := loop_count items) (h := h0) (c := length items)
             (c' := (length items + loop_count items)%nat); [|done| |done].
    - intros c e1 e2 t h' Hi [Hcount Hall] Hp.
      destruct Hi as [_ Hf].
      apply Forall_cons in Hf as [[_ Hw1] Hf].
      apply Forall_cons in Hf as [[_ Hw2] _].
      apply Forall_cons in Hall as [[H1 _] Hall].
      apply Forall_cons in Hall as [[H2 _] Hall].
      unfold heap_items in Hcount. simpl in Hcount.
      rewrite !length_app in Hcount. split.
      + rewrite (heap_items_perm _ _ Hp). unfold heap_items. simpl.
        rewrite length_app, (merged_all_items numBins _ _ Hw1 Hw2), length_app.
        lia.
      + rewrite Hp. constructor; [|done]. simpl. split; [|apply sort_ascending].
        apply (merged_one_item_each numBins); [done..|lia].
    - split.
      + rewrite (heap_items_perm _ _ Hperm).
        rewrite (seed_entries_items _ _ _ _ Hc). lia.
      + rewrite Hperm.
        apply (seed_entries_Forall bins valueof
                 (fun p => one_item_each p /\ ascending p)).
        intros item Hin. rewrite Forall_forall in Hv. specialize (Hv item Hin).
        split; [by eapply single_fresh_one_item_each|].
        eapply single_fresh_ascending; [done|lia]. }
  destruct HQ as [_ Hall].
  apply Forall_cons in Hall as [[(ne & l & Hl & Hal) Hasc] _].
  destruct (one_item_each_count _ ne l Hl Hal) as [Hcnt Hlen'].
  assert (Hn' : length (all_items (part e)) = length items) by (by rewrite Hit).
  exists (part e), (all_items (part e)). split; [done|]. split; [done|].
  assert (Hform : l = (fun x => mkBin [x] (valueof x)) <$> all_items (part e)).
  { unfold consistent in Hcp. rewrite Hl in Hcp.
    apply Forall_app in Hcp as [_ Hcl]. rewrite Hvp, Hvb in Hcl.
    rewrite (alone_list_form valueof l Hal Hcl) at 1. f_equal.
    unfold all_items. rewrite Hl, fmap_app, concat_app, fmap_replicate. simpl.
    by rewrite concat_replicate_nil. }
  split.
  - unfold ascending, sums in Hasc. rewrite Hl, fmap_app in Hasc.
    apply sorted_app_r in Hasc. rewrite Hform in Hasc.
    rewrite <- list_fmap_compose in Hasc. exact Hasc.
  - rewrite Hl, <- Hform. f_equal. f_equal. lia.
Qed.

(** ** The order of the items *)

Lemma entry_lt_new m x c :
  seqno m = c -> (seqno x < c)%nat -> entry_lt m x = Ok (key m <? key x).
Proof.
  intros Hm Hx. unfold entry_lt.
  destruct (Z.eqb_spec (key m) (key x)) as [Heq|Hne]; [|done].
  destruct (Nat.eqb_spec (seqno m) (seqno x)); [lia|].
  rewrite Heq, Z.ltb_irrefl. f_equal. apply Nat.ltb_ge. lia.
Qed.

(** Pushing one entry, with the sequence number of the counter, on two
    lists that differ by sequence numbers only, gives two such lists. *)
Lemma heappush_same_but_seqno c m h1 h2 :
  Forall2 same_but_seqno h1 h2 ->
  Forall (fun e => (seqno e < c)%nat) h1 ->
  Forall (fun e => (seqno e < c)%nat) h2 ->
  seqno m = c ->
  forall h1' h2', heappush h1 m = Ok h1' -> heappush h2 m = Ok h2' ->
  Forall2 same_but_seqno h1' h2'.
Proof.
  intros Hsim. induction Hsim as [|x y t1 t2 Hxy Hsim IH];
    intros Hf1 Hf2 Hm h1' h2'; cbn [heappush].
  - intros [= <-] [= <-]. by repeat constructor.
  - apply Forall_cons in Hf1 as [Hx Hf1]. apply Forall_cons in Hf2 as [Hy Hf2].
    rewrite (entry_lt_new m x c Hm Hx), (entry_lt_new m y c Hm Hy).
    pose proof Hxy as (Hk & Hp & Hs). rewrite <- Hk.
    cbn [mbind result_bind].
    destruct (key m <? key x).
    + intros [= <-] [= <-]. constructor; [by repeat split|]. by constructor.
    + destruct (heappush t1 m) as [t1'|]; [|done].
      destruct (heappush t2 m) as [t2'|]; [|done].
      cbn [mbind result_bind]. intros [= <-] [= <-].
      constructor; [done|]. by apply IH.
Qed.

Lemma heap_inv_seqnos K c h :
  heap_inv K c h -> Forall (fun e => (seqno e < c)%nat) h.
Proof. intros [_ Hf]. eapply Forall_impl; [exact Hf|]. by intros e [? _]. Qed.

Lemma merge_loop_same_but_seqno K bins :
  1 <= K -> wf K bins ->
  forall k h1 h2 c,
    heap_inv K c h1 -> heap_inv K c h2 -> Forall2 same_but_seqno h1 h2 ->
    (k < length h1)%nat ->
    exists h1' h2',
      merge_loop bins k (h1, c) = Ok (h1', (c + k)%nat)
      /\ merge_loop bins k (h2, c) = Ok (h2', (c + k)%nat)
      /\ Forall2 same_but_seqno h1' h2'.
Proof.
  intros HK Hb. induction k as [|k IH]; intros h1 h2 c Hi1 Hi2 Hsim Hlen;
    cbn [merge_loop].
  - exists h1, h2. by rewrite Nat.add_0_r.
  - destruct Hsim as [|a1 b1 t1 t2 H1 Hsim]; [simpl in Hlen; lia|].
    destruct Hsim as [|a2 b2 t1 t2 H2 Hsim]; [simpl in Hlen; lia|].
    destruct (kk_iter_spec K bins c a1 a2 t1 HK Hb Hi1)
      as (h1' & -> & Hpush1 & Hp1 & Hi1').
    destruct (kk_iter_spec K bins c b1 b2 t2 HK Hb Hi2)
      as (h2' & -> & Hpush2 & _ & Hi2').
    cbn [mbind result_bind].
    destruct H1 as (_ & Hpa & _), H2 as (_ & Hpb & _).
    rewrite <- Hpa, <- Hpb in Hpush2.
    assert (Hsim' : Forall2 same_but_seqno h1' h2').
    { apply (heappush_same_but_seqno c (merged_entry c (part a1) (part a2)) t1 t2);
        try done.
      - do 2 apply heap_inv_tail in Hi1. by eapply heap_inv_seqnos.
      - do 2 apply heap_inv_tail in Hi2. by eapply heap_inv_seqnos. }
    destruct (IH h1' h2' (S c) Hi1' Hi2' Hsim') as (r1 & r2 & Hr1 & Hr2 & Hr).
    { rewrite Hp1. simpl in *. lia. }
    exists r1, r2. replace (c + S k)%nat with (S c + k)%nat by lia. done.
Qed.

Lemma sorted_lt_unique (l1 : list Z) : forall l2,
  StronglySorted Z.lt l1 -> StronglySorted Z.lt l2 -> l1 ≡ₚ l2 -> l1 = l2.
Proof.
  induction l1 as [|x t1 IH]; intros l2 H1 H2 Hp.
  - by apply Permutation_nil_l in Hp.
  - destruct l2 as [|y t2]; [by apply Permutation_nil_r in Hp|].
    apply StronglySorted_inv in H1 as [H1 Hx], H2 as [H2 Hy].
    rewrite Forall_forall in Hx, Hy.
    assert (x = y) as <-.
    { assert (Hxin : x ∈ y :: t2) by (rewrite <- Hp; left).
      assert (Hyin : y ∈ x :: t1) by (rewrite Hp; left).
      apply elem_of_cons in Hxin as [?|Hxin]; [done|].
      apply elem_of_cons in Hyin as [?|Hyin]; [done|].
      pose proof (Hx y Hyin). pose proof (Hy x Hxin). lia. }
    f_equal. apply IH; [done..|]. by apply Permutation_cons_inv in Hp.
Qed.

Lemma sorted_keys h :
  StronglySorted entry_lex h -> NoDup (key <$> h) ->
  StronglySorted Z.lt (key <$> h).
Proof.
  induction 1 as [|a t _ IH Hall]; simpl; intros Hn; [constructor|].
  apply NoDup_cons in Hn as [Hnin Hn]. constructor; [by apply IH|].
  apply Forall_fmap. rewrite Forall_forall in *. intros b Hb. simpl.
  destruct (Hall b Hb) as [?|[Heq _]]; [done|].
  destruct Hnin. rewrite Heq. apply list_elem_of_fmap. by exists b.
Qed.

Lemma seed_entries_keys bins valueof items : forall c,
  key <$> seed_entries bins valueof c items = Z.opp <$> (valueof <$> items).
Proof.
  induction items as [|x t IH]; intros c; simpl; [done|]. by rewrite IH.
Qed.

Lemma seed_entries_are_seeds bins valueof items : forall c,
  Forall (fun e => exists x n, x ∈ items /\ e = seed_entry bins valueof n x)
    (seed_entries bins valueof c items).
Proof.
  induction items as [|x t IH]; intros c; simpl; constructor.
  - exists x, c. split; [left|done].
  - eapply Forall_impl; [apply IH|]. simpl. intros e (y & n & Hy & ->).
    exists y, n. split; [by right|done].
Qed.

Lemma NoDup_fmap_eq {A B} (f : A -> B) (l : list A) x y :
  NoDup (f <$> l) -> x ∈ l -> y ∈ l -> f x = f y -> x = y.
Proof.
  intros Hn Hx Hy Hf.
  apply list_elem_of_lookup in Hx as [i Hi], Hy as [j Hj].
  assert (i = j) as ->.
  { eapply NoDup_lookup; [exact Hn|..].
    - by rewrite list_lookup_fmap, Hi.
    - rewrite list_lookup_fmap, Hj. simpl. by rewrite Hf. }
  congruence.
Qed.

(** X7. The order of the items matters only between items of the same
    value: on two lists of the same items, whose values are pairwise
    distinct, the solver returns the same partition. *)
Theorem partition_order_irrelevant_for_distinct_values
    (numBins : Z) (items1 items2 : list Item) (valueof : Item -> Z) :
  items1 ≡ₚ items2 ->
  NoDup (valueof <$> items1) ->
  partition numBins items1 valueof = partition numBins items2 valueof.
Proof.
  intros Hperm Hnd. unfold partition.
  destruct (create_empty_bins numBins valueof) as [bins|] eqn:Hc; [|done].
  cbn [mbind result_bind].
  destruct (fresh_bins _ _ _ Hc) as (HK & Hb & _).
  destruct (decide (items1 = [])) as [->|Hne1].
  { by apply Permutation_nil_l in Hperm as <-. }
  assert (Hne2 : items2 <> []).
  { intros ->. by apply Permutation_nil_r in Hperm. }
  destruct (kk_run numBins bins valueof items1 HK Hb Hne1)
    as (h1 & e1 & _ & Hp1 & Hi1 & Hl1 & _ & ->).
  destruct (kk_run numBins bins valueof items2 HK Hb Hne2)
    as (h2 & e2 & _ & Hp2 & Hi2 & Hl2 & _ & ->).
  assert (Hlen : length items2 = length items1) by (by rewrite Hperm).
  assert (Hcount : loop_count items2 = loop_count items1)
    by (by rewrite !loop_count_length, Hlen).
  rewrite Hlen, Hcount in Hl2. rewrite Hlen in Hi2.
  assert (Hkeys : key <$> h1 = key <$> h2).
  { assert (Hk1 : key <$> h1 ≡ₚ Z.opp <$> (valueof <$> items1))
      by (by rewrite Hp1, seed_entries_keys).
    assert (Hk2 : key <$> h2 ≡ₚ Z.opp <$> (valueof <$> items1))
      by (by rewrite Hp2, seed_entries_keys, Hperm).
    assert (Hnk : NoDup (Z.opp <$> (valueof <$> items1))).
    { apply NoDup_fmap_2; [|done]. intros a b. lia. }
    apply sorted_lt_unique.
    - apply sorted_keys; [apply Hi1|by rewrite Hk1].
    - apply sorted_keys; [apply Hi2|by rewrite Hk2].
    - by rewrite Hk1, Hk2. }
  assert (Hsim : Forall2 same_but_seqno h1 h2).
  { assert (Hs1 : Forall (fun e => exists x n, x ∈ items1
                                   /\ e = seed_entry bins valueof n x) h1)
      by (rewrite Hp1; apply seed_entries_are_seeds).
    assert (Hs2 : Forall (fun e => exists x n, x ∈ items1
                                   /\ e = seed_entry bins valueof n x) h2).
    { rewrite Hp2. eapply Forall_impl; [apply seed_entries_are_seeds|].
      simpl. intros e (x & n & Hx & ->). exists x, n. by rewrite Hperm. }
    clear -Hkeys Hs1 Hs2 Hnd. revert h2 Hkeys Hs2.
    induction Hs1 as [|a t1 (x & n & Hx & ->) _ IH]; intros [|b t2] Hkeys Hs2;
      try done.
    apply Forall_cons in Hs2 as [(y & m & Hy & ->) Hs2].
    simpl in Hkeys. injection Hkeys as Hk Hkeys.
    assert (x = y) as <-.
    { apply (NoDup_fmap_eq valueof items1); [done..|lia]. }
    constructor; [done|]. by apply IH. }
  destruct (merge_loop_same_but_seqno numBins bins HK Hb (loop_count items1)
              h1 h2 (length items1) Hi1 Hi2 Hsim)
    as (r1 & r2 & Hr1 & Hr2 & Hr).
  { rewrite Hp1, seed_entries_length, loop_count_length.
    destruct items1; [done|simpl; lia]. }
  rewrite Hl1 in Hr1. rewrite Hl2 in Hr2.
  injection Hr1 as <-. injection Hr2 as <-.
  apply Forall2_cons in Hr as [(_ & Hpart & _) _]. by rewrite Hpart.
Qed.

(** ** Failures *)


End KarmarkarKarp.

Arguments Bin : clear implicits.
Arguments Bins : clear implicits.
Arguments entry : clear implicits.

(** * Instances on integer items *)

(** C7. For two distinct values [a] and [b], neither negative, the solver
    on two bins and the items [a; b], each its own value, returns the
    partition whose bins hold one item each: the smaller one in the first
    bin, the larger one in the second, with sums [a] and [b]. *)
Theorem two_items_two_bins_split (a b : Z) :
  0 <= a -> 0 <= b -> a <> b ->
  exists p, partition 2 [a; b] id = Ok p
    /\ sums p = [Z.min a b; Z.max a b]
    /\ contents <$> bin_list p = [[Z.min a b]; [Z.max a b]]
    /\ sums p ≡ₚ [a; b].
Proof.
  intros _ _ H. unfold partition. rewrite create_empty_bins_Ok by lia.
  cbn [mbind result_bind].
  set (bins := mkBins 2 id (replicate (Z.to_nat 2) empty_bin)).
  assert (Hb : wf 2 bins) by (by split).
  unfold kk. cbn [seed]. rewrite !add_item_to_bin_last by (simpl; lia).
  cbn [mbind result_bind heappush].
  change (loop_count [a; b]) with 1%nat.
  assert (Hwa : wf 2 (single bins a)) by (by apply single_wf).
  assert (Hwb : wf 2 (single bins b)) by (by apply single_wf).
  destruct (Z.lt_total a b) as [Hlt|[?|Hgt]]; [|done|].
  - rewrite entry_lt_true by (left; simpl; lia).
    cbn [mbind result_bind merge_loop kk_iter heappop part].
    rewrite (merge_spec 2 bins _ _ Hb Hwb Hwa).
    unfold single, bins. cbn [num value_fn bin_list].
    change (Z.to_nat (2 - 1)) with 1%nat. change (Z.to_nat 2) with 2%nat.
    unfold sort. cbn. rewrite ?Z.add_0_l, ?Z.add_0_r.
    destruct (Z.leb_spec a b) as [_|?]; [|lia]. cbn.
    eexists. split; [reflexivity|]. cbn.
    rewrite ?Z.add_0_l, ?Z.add_0_r, Z.min_l, Z.max_r by lia. done.
  - rewrite entry_lt_false by (left; simpl; lia).
    cbn [mbind result_bind merge_loop kk_iter heappop part].
    rewrite (merge_spec 2 bins _ _ Hb Hwa Hwb).
    unfold single, bins. cbn [num value_fn bin_list].
    change (Z.to_nat (2 - 1)) with 1%nat. change (Z.to_nat 2) with 2%nat.
    unfold sort. cbn. rewrite ?Z.add_0_l, ?Z.add_0_r.
    destruct (Z.leb_spec b a) as [_|?]; [|lia]. cbn.
    eexists. split; [reflexivity|]. cbn.
    rewrite ?Z.add_0_l, ?Z.add_0_r, Z.min_r, Z.max_l by lia.
    split; [done|]. split; [done|]. apply perm_swap.
Qed.

(** * The theorems on concrete inputs *)

(** Three bins, eight items. *)
Lemma kk_returns_sorted_partition_of_items_witness :
  1 <= 3 /\ [1; 3; 3; 4; 4; 5; 5; 5] <> [] /\
  exists p, partition 3 [1; 3; 3; 4; 4; 5; 5; 5] id = Ok p
    /\ num p = 3
    /\ length (bin_list p) = Z.to_nat 3
    /\ all_items p ≡ₚ [1; 3; 3; 4; 4; 5; 5; 5]
    /\ ascending p
    /\ value_fn p = id
    /\ consistent p.
Proof.
  split; [lia|]. split; [done|].
  apply kk_returns_sorted_partition_of_items; [lia | done | by repeat constructor].
Defined.

(** C2. The call on an empty [items] is not refused before the merge
    loop: seeding succeeds. *)
Lemma empty_items_not_rejected_before_merge_loop :
  ~ rejects_before_merge_loop (mkBins 2 id (replicate 2%nat empty_bin)) [] id.
Proof. intros [e He]. discriminate He. Qed.

(** The merge of the partitions seeded for 5 and for 3 on two bins. *)
Lemma merge_pairs_opposite_ranks_then_sorts_witness :
  let bins := mkBins 2 id (replicate 2%nat empty_bin) in
  let e1 := seed_entry bins id 0 5 in
  let e2 := seed_entry bins id 1 3 in
  wf 2 bins /\ wf 2 (part e1) /\ wf 2 (part e2)
  /\ exists C, merge bins (part e1) (part e2) = Ok C
       /\ ascending (sort C) /\ bin_list (sort C) ≡ₚ bin_list C.
Proof.
  intros bins e1 e2.
  assert (Hb : wf 2 bins) by (split; reflexivity).
  assert (H1 : wf 2 (part e1)) by (split; reflexivity).
  assert (H2 : wf 2 (part e2)) by (split; reflexivity).
  split; [done|]. split; [done|]. split; [done|].
  destruct (merge_pairs_opposite_ranks_then_sorts 2 bins 2 e1 e2 [] Hb H1 H2)
    as (C & Hm & _ & _ & _ & Hasc & Hp).
  by exists C.
Defined.

(** C4. With the items 1, 2 and 3 the first pass pops the entries of keys
    -3 and -2 and leaves the entry of key -1, the highest; and with no item
    at all no entry is left for the result. *)
Lemma highest_keyed_entry_is_not_popped :
  ~ pops_two_highest_keyed (seeded 2 [1; 2; 3] id)
  /\ final_partition (seeded 2 (@nil Z) id) = Err IndexError.
Proof.
  split; [|reflexivity].
  unfold pops_two_highest_keyed. intros H.
  remember (seeded 2 [1; 2; 3] id) as h eqn:Hh. vm_compute in Hh. subst h.
  specialize (H _ _ _ _ eq_refl eq_refl). destruct H as [_ Hf].
  apply Forall_cons in Hf as [Hf _]. simpl in Hf. lia.
Qed.

(** Four bins, five items: four passes of the merge loop. *)
Lemma merge_loop_pops_two_least_and_pushes_spread_witness :
  let bins := mkBins 4 id (replicate 4%nat empty_bin) in
  create_empty_bins 4 id = Ok bins /\ [8; 7; 6; 5; 4] <> []
  /\ loop_count [8; 7; 6; 5; 4] = 4%nat
  /\ exists e, kk bins [8; 7; 6; 5; 4] id = Ok (part e).
Proof.
  intros bins. split; [reflexivity|]. split; [done|].
  destruct (merge_loop_pops_two_least_and_pushes_spread 4 [8; 7; 6; 5; 4] id bins
              eq_refl ltac:(done)) as (Hn & h0 & _ & _ & _ & e & _ & Hkk).
  split; [exact Hn|]. by exists e.
Defined.

(** Seeding three items on three bins. *)
Lemma seed_pushes_one_item_partitions_witness :
  let bins := mkBins 3 id (replicate 3%nat empty_bin) in
  create_empty_bins 3 id = Ok bins
  /\ exists h, seed bins id [8; 6; 5] [] 0 = Ok (h, 3%nat)
       /\ h ≡ₚ seed_entries bins id 0 [8; 6; 5].
Proof.
  intros bins. split; [reflexivity|].
  exact (proj1 (seed_pushes_one_item_partitions 3 [8; 6; 5] id bins eq_refl)).
Defined.

(** Three bins, five items. *)
Lemma merge_loop_never_fails_witness :
  let bins := mkBins 3 id (replicate 3%nat empty_bin) in
  create_empty_bins 3 id = Ok bins /\ [8; 6; 5; 7; 4] <> []
  /\ is_Ok (kk bins [8; 6; 5; 7; 4] id).
Proof.
  intros bins. split; [reflexivity|]. split; [done|].
  destruct (merge_loop_never_fails 3 [8; 6; 5; 7; 4] id bins eq_refl
              ltac:(done) ltac:(by repeat constructor))
    as (h0 & _ & _ & _ & _ & Hkk).
  exact Hkk.
Defined.

(** The items 3 and 5. *)
Lemma two_items_two_bins_split_witness :
  0 <= 3 /\ 0 <= 5 /\ 3 <> 5
  /\ exists p, partition 2 [3; 5] id = Ok p
       /\ sums p = [3; 5]
       /\ contents <$> bin_list p = [[3]; [5]]
       /\ sums p ≡ₚ [3; 5].
Proof.
  split; [lia|]. split; [lia|]. split; [lia|].
  apply (two_items_two_bins_split 3 5); lia.
Defined.

(** The run of [kk] on 3 and 5 is a run over any heap. *)
Lemma kk_deterministic_witness :
  let bins := mkBins 2 id (replicate 2%nat empty_bin) in
  let p := mkBins 2 id [mkBin [3] 3; mkBin [5] 5] in
  kk_any bins [3; 5] id p /\ kk bins [3; 5] id = Ok p.
Proof.
  intros bins p.
  assert (H : kk_any bins [3; 5] id p) by (apply kk_kk_any; reflexivity).
  split; [exact H|].
  exact (proj2 (kk_deterministic bins [3; 5] id p p H H)).
Defined.

(** Three bins, three items. *)
Lemma pushed_partitions_are_ascending_witness :
  let bins := mkBins 3 id (replicate 3%nat empty_bin) in
  create_empty_bins 3 id = Ok bins
  /\ Forall (fun x => 0 <= id x) [8; 6; 5]
  /\ forall st, reachable bins id [8; 6; 5] st ->
       Forall (fun e => ascending (part e)) (fst st).
Proof.
  intros bins.
  assert (Hv : Forall (fun x => 0 <= id x) [8; 6; 5]) by (by repeat constructor).
  split; [reflexivity|]. split; [exact Hv|].
  exact (proj1 (proj2 (proj2
    (pushed_partitions_are_ascending 3 [8; 6; 5] id bins eq_refl Hv)))).
Defined.

(** * The further properties on concrete inputs *)

(** One item of negative value on three bins. *)
Lemma partition_single_item_witness :
  1 <= 3 /\
  exists p, partition 3 [-5] id = Ok p
    /\ bin_list p = [empty_bin; empty_bin; mkBin [-5] (-5)]
    /\ (ascending p <-> 3 = 1 \/ 0 <= id (-5)).
Proof. split; [lia|]. apply (partition_single_item 3 (-5) id). lia. Defined.

(** Items of both signs on two bins. *)
Lemma partition_accepts_any_values_witness :
  1 <= 2 /\ (2 <= length [-3; 4; -1]%Z)%nat /\
  exists p, partition 2 [-3; 4; -1] id = Ok p
    /\ num p = 2
    /\ length (bin_list p) = Z.to_nat 2
    /\ all_items p ≡ₚ [-3; 4; -1]
    /\ consistent p
    /\ ascending p.
Proof.
  split; [lia|]. split; [simpl; lia|].
  apply (partition_accepts_any_values 2 [-3; 4; -1] id); [lia|simpl; lia].
Defined.

(** Five items on four bins: the sums add up to 30. *)
Lemma partition_sums_add_up_witness :
  1 <= 4 /\ [8; 7; 6; 5; 4] <> [] /\
  exists p, partition 4 [8; 7; 6; 5; 4] id = Ok p /\ total (sums p) = 30.
Proof.
  split; [lia|]. split; [done|].
  apply (partition_sums_add_up 4 [8; 7; 6; 5; 4] id); [lia|done].
Defined.

(** Seven items of value at most 8 on three bins. *)
Lemma partition_spread_at_most_largest_value_witness :
  1 <= 3 /\ [8; 6; 5; 3; 2; 2; 1] <> []
  /\ Forall (fun x => 0 <= id x <= 8) [8; 6; 5; 3; 2; 2; 1]
  /\ exists p mx mn,
       partition 3 [8; 6; 5; 3; 2; 2; 1] id = Ok p
       /\ py_max (sums p) = Ok mx /\ py_min (sums p) = Ok mn /\ mx - mn <= 8.
Proof.
  assert (Hv : Forall (fun x => 0 <= id x <= 8) [8; 6; 5; 3; 2; 2; 1])
    by (repeat constructor; simpl; lia).
  split; [lia|]. split; [done|]. split; [exact Hv|].
  apply (partition_spread_at_most_largest_value 3 _ id 8); [lia|done|exact Hv].
Defined.

(** Three items on four bins. *)
Lemma partition_enough_bins_one_item_each_witness :
  [5; 3; 9] <> [] /\ Z.of_nat (length [5; 3; 9]) <= 4
  /\ Forall (fun x => 0 < id x) [5; 3; 9]
  /\ exists p xs,
       partition 4 [5; 3; 9] id = Ok p
       /\ xs ≡ₚ [5; 3; 9]
       /\ StronglySorted Z.le (id <$> xs)
       /\ bin_list p = [empty_bin] ++ ((fun x => mkBin [x] (id x)) <$> xs).
Proof.
  assert (Hv : Forall (fun x => 0 < id x) [5; 3; 9])
    by (repeat constructor; simpl; lia).
  split; [done|]. split; [simpl; lia|]. split; [exact Hv|].
  apply (partition_enough_bins_one_item_each 4 [5; 3; 9] id);
    [done|simpl; lia|exact Hv].
Defined.

(** Three items on one bin. *)
Lemma partition_one_bin_witness :
  [4; 2; 7] <> [] /\
  exists p b, partition 1 [4; 2; 7] id = Ok p
    /\ bin_list p = [b] /\ contents b ≡ₚ [4; 2; 7] /\ bsum b = 13.
Proof.
  split; [done|]. apply (partition_one_bin [4; 2; 7] id). done.
Defined.

(** The items 1, 2 and 3 in two orders. *)
Lemma partition_order_irrelevant_for_distinct_values_witness :
  [1; 2; 3] ≡ₚ [3; 1; 2] /\ NoDup (id <$> [1; 2; 3])
  /\ partition 2 [1; 2; 3] id = partition 2 [3; 1; 2] id.
Proof.
  assert (Hp : [1; 2; 3] ≡ₚ [3; 1; 2])
    by (symmetry; apply (Permutation_cons_append [1; 2] 3)).
  assert (Hn : NoDup (id <$> [1; 2; 3]))
    by (cbn; repeat (apply NoDup_cons_2;
                       [rewrite ?elem_of_cons, elem_of_nil; lia|]);
        apply NoDup_nil_2).
  split; [exact Hp|]. split; [exact Hn|].
  exact (partition_order_irrelevant_for_distinct_values 2 _ _ id Hp Hn).
Defined.

(** Two items on two bins of which the first holds 7 already. *)
Lemma kk_on_filled_bins_witness :
  let bins := mkBins 2 id [mkBin [7] 7; mkBin [] 0] in
  1 <= 2 /\ wf 2 bins /\ consistent bins /\ [1; 2] <> []
  /\ exists p, kk bins [1; 2] id = Ok p
       /\ all_items p ≡ₚ [1; 2] ++ [7] ++ [7]
       /\ total (sums p) = 3 + 2 * 7.
Proof.
  intros bins.
  assert (Hb : wf 2 bins) by (split; reflexivity).
  assert (Hc : consistent bins) by (repeat constructor).
  split; [lia|]. split; [exact Hb|]. split; [exact Hc|]. split; [done|].
  destruct (kk_on_filled_bins 2 bins [1; 2] id ltac:(lia) Hb Hc ltac:(done))
    as (p & Hkk & _ & _ & _ & Hit & Htot).
  exists p. split; [exact Hkk|]. split; [exact Hit|exact Htot].
Defined.

(** The merge of the partitions seeded for 5 and for 3 on two bins. *)
Lemma merge_never_widens_spread_witness :
  let bins := mkBins 2 id (replicate 2%nat empty_bin) in
  let p := single bins 5 in
  let q := single bins 3 in
  1 <= 2 /\ wf 2 bins /\ wf 2 p /\ wf 2 q /\ ascending p /\ ascending q
  /\ exists C mx mn,
       merge bins p q = Ok C
       /\ py_max (sums (sort C)) = Ok mx
       /\ py_min (sums (sort C)) = Ok mn
       /\ mx - mn <= Z.max (spread p) (spread q).
Proof.
  intros bins p q.
  assert (Hb : wf 2 bins) by (split; reflexivity).
  assert (Hp : wf 2 p) by (split; reflexivity).
  assert (Hq : wf 2 q) by (split; reflexivity).
  assert (Hap : ascending p)
    by (unfold ascending, p, q, bins; cbn; repeat constructor; cbn; lia).
  assert (Haq : ascending q)
    by (unfold ascending, p, q, bins; cbn; repeat constructor; cbn; lia).
  split; [lia|]. do 5 (split; [assumption|]).
  apply (merge_never_widens_spread 2 bins p q); [lia|assumption..].
Defined.

(** Seven items of value at most 8 on three bins. *)
Lemma partition_largest_sum_bound_witness :
  1 <= 3 /\ [8; 6; 5; 3; 2; 2; 1] <> []
  /\ Forall (fun x => 0 <= id x <= 8) [8; 6; 5; 3; 2; 2; 1]
  /\ exists p mx,
       partition 3 [8; 6; 5; 3; 2; 2; 1] id = Ok p
       /\ py_max (sums p) = Ok mx /\ 3 * (mx - 8) <= 27.
Proof.
  assert (Hv : Forall (fun x => 0 <= id x <= 8) [8; 6; 5; 3; 2; 2; 1])
    by (repeat constructor; simpl; lia).
  split; [lia|]. split; [done|]. split; [exact Hv|].
  apply (partition_largest_sum_bound 3 [8; 6; 5; 3; 2; 2; 1] id 8);
    [lia|done|exact Hv].
Defined.

(** The merge of the partitions seeded for 5 and for 3 on two bins. *)
Lemma two_bins_merge_is_differencing_witness :
  let bins := mkBins 2 id (replicate 2%nat empty_bin) in
  let p := single bins 5 in
  let q := single bins 3 in
  wf 2 bins /\ wf 2 p /\ wf 2 q /\ ascending p /\ ascending q
  /\ exists C mx mn,
       merge bins p q = Ok C
       /\ py_max (sums (sort C)) = Ok mx
       /\ py_min (sums (sort C)) = Ok mn
       /\ mx - mn = Z.abs (5 - 3).
Proof.
  intros bins p q.
  assert (Hb : wf 2 bins) by (split; reflexivity).
  assert (Hp : wf 2 p) by (split; reflexivity).
  assert (Hq : wf 2 q) by (split; reflexivity).
  assert (Hap : ascending p)
    by (unfold ascending, p, q, bins; cbn; repeat constructor; cbn; lia).
  assert (Haq : ascending q)
    by (unfold ascending, p, q, bins; cbn; repeat constructor; cbn; lia).
  do 5 (split; [assumption|]).
  apply (two_bins_merge_is_differencing bins p q); assumption.
Defined.
